(** * minemeld.ft.http : the HTTP feed miner [HttpFT]

    A shallow embedding of [minemeld/ft/http.py] and the properties of its
    reconciliation cycle, its scheduling loop and its RPC surface.

    Layout:
    - [Py]     : the Python values and string primitives the miner uses;
    - [Table]  : the state store the miner writes to;
    - [HttpFT] : the miner itself, method by method;
    - the theorems, one per property of the specification. *)

From Stdlib Require Import ZArith Lia Ascii String List Sorting.Sorted.
From stdpp Require Import base option list sorting gmap strings fin_maps.

Local Open Scope string_scope.
Local Open Scope Z_scope.

(* ===================================================================== *)
(** ** Python values, exceptions and string primitives                    *)
(* ===================================================================== *)

Module Py.

(** The exceptions that cross the miner's methods.  [GreenletExit] is the
    cancellation signal of gevent; every other constructor is caught by the
    bare [except:] of [_run]. *)
Inductive exn :=
| GreenletExit
| IndexError
| KeyError (key : string)
| ValueError (msg : string)
| RequestException.

Inductive result (A : Type) :=
| Ok (a : A)
| Raise (e : exn).
Arguments Ok {A} a.
Arguments Raise {A} e.

(** Arguments of the RPC methods arrive untyped. *)
Inductive pyval :=
| PyNone
| PyBool (b : bool)
| PyInt (z : Z)
| PyStr (s : string)
| PyUnicode (s : string).

(** [type(v) in [str, unicode]] *)
Definition is_string (v : pyval) : bool :=
  match v with
  | PyStr _ | PyUnicode _ => true
  | _ => false
  end.

(** [v != lit] for a [str] literal [lit]: a [str] and a [unicode] with the
    same characters compare equal, every other type differs from a string. *)
Definition ne_str (v : pyval) (lit : string) : bool :=
  match v with
  | PyStr s | PyUnicode s => negb (String.eqb s lit)
  | _ => true
  end.

(** The characters [str.strip()] and [str.split()] treat as whitespace:
    tab, line feed, vertical tab, form feed, carriage return, space. *)
Definition is_space (c : ascii) : bool :=
  let n := nat_of_ascii c in
  ((9 <=? n)%nat && (n <=? 13)%nat) || (n =? 32)%nat.

Fixpoint lstrip (s : string) : string :=
  match s with
  | EmptyString => EmptyString
  | String c s' => if is_space c then lstrip s' else s
  end.

Fixpoint rstrip (s : string) : string :=
  match s with
  | EmptyString => EmptyString
  | String c s' =>
      match rstrip s' with
      | EmptyString => if is_space c then EmptyString else String c EmptyString
      | r => String c r
      end
  end.

Definition strip (s : string) : string := rstrip (lstrip s).

(** [s.startswith(p)] *)
Definition startswith (s p : string) : bool := String.prefix p s.

(** Push a character on the first token of a token list. *)
Definition cons_head (c : ascii) (toks : list string) : list string :=
  match toks with
  | t :: ts => String c t :: ts
  | [] => [String c EmptyString]
  end.

(** [s.split(sep)] for a non-empty [sep]: cut at each occurrence of [sep],
    scanning left to right; [skip] counts the characters of a matched
    separator still to be dropped. *)
Fixpoint split_at (sep : string) (skip : nat) (s : string) : list string :=
  match s with
  | EmptyString => [EmptyString]
  | String c s' =>
      match skip with
      | S k => split_at sep k s'
      | O =>
          if String.prefix sep s
          then EmptyString :: split_at sep (Nat.pred (String.length sep)) s'
          else cons_head c (split_at sep O s')
      end
  end.

(** [s.split(sep)]: an empty separator is a [ValueError]. *)
Definition split (s sep : string) : result (list string) :=
  match sep with
  | EmptyString => Raise (ValueError "empty separator")
  | _ => Ok (split_at sep O s)
  end.

(** [s.split()]: the maximal runs of non-whitespace characters. *)
Fixpoint split_ws (s : string) : list string :=
  match s with
  | EmptyString => []
  | String c s' =>
      if is_space c then split_ws s'
      else match s' with
           | EmptyString => [String c EmptyString]
           | String c' _ =>
               if is_space c' then String c EmptyString :: split_ws s'
               else cons_head c (split_ws s')
           end
  end.

(** [l[i]] with Python's negative indices. *)
Definition index {A} (l : list A) (i : Z) : result A :=
  let n := Z.of_nat (List.length l) in
  let j := if i <? 0 then n + i else i in
  if (0 <=? j) && (j <? n)
  then match nth_error l (Z.to_nat j) with
       | Some x => Ok x
       | None => Raise IndexError
       end
  else Raise IndexError.

(** The values an attribute map holds. *)
Inductive value :=
| VInt (z : Z)
| VStr (s : string)
| VList (l : list string).

(** [random.randint(lo, hi)]: an integer of the closed interval [lo..hi],
    chosen by the generator; [seed] is the generator's draw. *)
Definition randint (lo hi : Z) (seed : Z) : Z :=
  lo + seed mod (hi - lo + 1).

End Py.

(** An attribute map: a schema-free [dict] from attribute names to values. *)
Abbreviation attrs := (gmap string Py.value).

(* ===================================================================== *)
(** ** The state store                                                    *)
(* ===================================================================== *)

Module Table.

(** The class [Table] of [minemeld/ft/table.py], which [http.py] imports, is
    not among the sources.  The specification describes it as an ordered
    mapping from key to record with a secondary index on [_updated] that
    [put] and [delete] keep consistent, and that supports ascending range
    scans. *)

(** Modelled from the spec: [Table.put] of [table.py]; an upsert. *)
Definition put (k : string) (v : attrs) (t : gmap string attrs)
  : gmap string attrs := <[k := v]> t.

(** Modelled from the spec: [Table.get] of [table.py]; the value or absent. *)
Definition get (k : string) (t : gmap string attrs) : option attrs := t !! k.

(** Modelled from the spec: [Table.delete] of [table.py]; does nothing on an
    absent key. *)
Definition delete (k : string) (t : gmap string attrs)
  : gmap string attrs := base.delete k t.

(** Modelled from the spec: [Table.num_indicators] of [table.py]; the current
    record count. *)
Definition num_indicators (t : gmap string attrs) : nat := size t.

(** Modelled from the spec: the value under which the index [iname] of
    [table.py] files a record; a record whose indexed attribute is missing
    or is not an integer is not in the index. *)
Definition index_value (iname : string) (v : attrs) : option Z :=
  match v !! iname with
  | Some (Py.VInt z) => Some z
  | _ => None
  end.

(** Modelled from the spec: the range of a scan of [table.py].  An absent
    bound is unbounded.  The reconciliation algorithm of the specification
    reads the scan up to [T - 1] as the entries strictly below [T - 1], so
    the range is half-open: lower bound included, upper bound excluded. *)
Definition in_range (from_key to_key : option Z) (z : Z) : bool :=
  match from_key with Some a => a <=? z | None => true end
  && match to_key with Some b => z <? b | None => true end.

(** One index entry per record the index holds, tagged with its value. *)
Definition index_entry (iname : string) (from_key to_key : option Z)
    (kv : string * attrs) : option (Z * (string * attrs)) :=
  match index_value iname kv.2 with
  | Some z => if in_range from_key to_key z then Some (z, kv) else None
  | None => None
  end.

Definition stamp_le (x y : Z * (string * attrs)) : Prop := x.1 ≤ y.1.

#[global] Instance stamp_le_dec x y : Decision (stamp_le x y) :=
  Z_le_dec x.1 y.1.

(** Modelled from the spec: the scan behind [Table.query] of [table.py]; the
    entries of the index [iname] within the range, in ascending order of
    their index value.  Entries with the same index value come in the order
    of the underlying map. *)
Definition scan (iname : string) (from_key to_key : option Z)
    (t : gmap string attrs) : list (Z * (string * attrs)) :=
  merge_sort stamp_le (omap (index_entry iname from_key to_key) (map_to_list t)).

(** Modelled from the spec: [Table.query] of [table.py], called as
    [query(iname, from_key=.., to_key=.., include_value=True)]; the keys and
    records of the scan. *)
Definition query (iname : string) (from_key to_key : option Z)
    (t : gmap string attrs) : list (string * attrs) :=
  (scan iname from_key to_key t).*2.

End Table.

(* ===================================================================== *)
(** ** The miner                                                          *)
(* ===================================================================== *)

Module HttpFT.
Import Py.

(** *** Configuration: [configure] *)

(** The configuration dictionary as loaded: every key may be absent. *)
Record raw_config := {
  raw_source_name : option string;
  raw_url : option string;
  raw_cchar : option string;
  raw_split_char : option string;
  raw_split_pos : option Z;
  raw_attributes : option attrs;
  raw_interval : option Z;
  raw_force_updates : option bool;
  raw_polling_timeout : option Z;
  raw_num_retries : option Z
}.

Record config := {
  source_name : string;
  url : option string;
  cchar : option string;
  split_char : option string;
  split_pos : Z;
  attributes : attrs;
  interval : Z;
  force_updates : bool;
  polling_timeout : Z;
  num_retries : Z
}.

Definition configure (name : string) (c : raw_config) : config := {|
  source_name := default name (raw_source_name c);
  url := raw_url c;
  cchar := raw_cchar c;
  split_char := raw_split_char c;
  split_pos := default 0 (raw_split_pos c);
  attributes := default ∅ (raw_attributes c);
  interval := default 86400 (raw_interval c);
  force_updates := default false (raw_force_updates c);
  polling_timeout := default 20 (raw_polling_timeout c);
  num_retries := default 2 (raw_num_retries c)
|}.

(** *** The two overridable methods *)

Class Hooks := {
  values_compare : attrs → attrs → bool;
  process_line : config → string → result (option string * attrs)
}.

(** [_values_compare]: the default predicate reports equal. *)
Definition _values_compare (d1 d2 : attrs) : bool := true.

(** [_process_line]: first whitespace-delimited token, and a copy of the
    configured attributes. *)
Definition _process_line (cfg : config) (line : string)
  : result (option string * attrs) :=
  match index (split_ws line) 0 with
  | Ok tok => Ok (Some tok, attributes cfg)
  | Raise e => Raise e
  end.

Definition default_hooks : Hooks := {|
  values_compare := _values_compare;
  process_line := _process_line
|}.

(** *** State of a node and of its surroundings *)

(** What the node does to the outside, in the order it does it.  The
    emitters [emit_update], [emit_withdraw] and [do_rpc] belong to the base
    class [base.BaseFT], which is not among the sources: they are calls
    that send and return nothing, and are recorded as such.  A sleep of
    [deltat/1000.0] seconds is recorded by its milliseconds [deltat].  Of the
    log, the exception of a failed cycle and the overrun warning are
    recorded. *)
Inductive effect :=
| EmitUpdate (indicator : string) (v : attrs)
| EmitWithdraw (indicator : string) (v : attrs)
| RpcUpdate (source : option string) (indicator : string) (v : attrs)
| SpawnLater (seconds : Z)
| SleepSeconds (seconds : Z)
| SleepMillis (ms : Z)
| KillRequest (handle : nat)
| KillGlet
| LogException
| LogWarning.

(** Where the background task [_run] stands: not yet entered, at the top of
    its [while True] with the value of [tryn], inside the overrun loop of
    its scheduling step with the value of [deltat], or ended. *)
Inductive pc :=
| Entry
| Loop (tryn : Z)
| Spin (deltat : Z)
| Done.

Record greenlet := {
  delay : Z;
  at_pc : pc
}.

Record node := {
  glet : option greenlet;
  table : gmap string attrs;
  active_requests : list nat;
  reinit_flag : bool;
  ticks : nat;
  trace : list effect
}.

Definition set_glet (g : option greenlet) (s : node) : node :=
  {| glet := g; table := table s; active_requests := active_requests s;
     reinit_flag := reinit_flag s; ticks := ticks s; trace := trace s |}.

Definition set_table (t : gmap string attrs) (s : node) : node :=
  {| glet := glet s; table := t; active_requests := active_requests s;
     reinit_flag := reinit_flag s; ticks := ticks s; trace := trace s |}.

Definition set_ticks (n : nat) (s : node) : node :=
  {| glet := glet s; table := table s; active_requests := active_requests s;
     reinit_flag := reinit_flag s; ticks := n; trace := trace s |}.

Definition set_trace (tr : list effect) (s : node) : node :=
  {| glet := glet s; table := table s; active_requests := active_requests s;
     reinit_flag := reinit_flag s; ticks := ticks s; trace := tr |}.

(** [__init__]: no task handle, an empty list of active requests. *)
Definition __init__ (t : gmap string attrs) (reinit : bool) : node := {|
  glet := None;
  table := t;
  active_requests := [];
  reinit_flag := reinit;
  ticks := O;
  trace := []
|}.

(** *** Computations that change the node and may raise *)

Definition M (A : Type) : Type := node → result A * node.

Definition ret {A} (a : A) : M A := fun s => (Ok a, s).

Definition bind {A B} (m : M A) (k : A → M B) : M B :=
  fun s => match m s with
           | (Ok a, s') => k a s'
           | (Raise e, s') => (Raise e, s')
           end.

Definition raise {A} (e : exn) : M A := fun s => (Raise e, s).

Definition lift {A} (r : result A) : M A := fun s => (r, s).

Notation "'let!' x ':=' m 'in' k" := (bind m (fun x => k))
  (at level 10, x name, m at level 100, k at level 200).
Notation "'do!' m 'in' k" := (bind m (fun _ => k))
  (at level 10, m at level 100, k at level 200).

Fixpoint for_each {A} (l : list A) (body : A → M unit) : M unit :=
  match l with
  | [] => ret tt
  | x :: l' => do! body x in for_each l' body
  end.

Definition perform (e : effect) : M unit :=
  fun s => (Ok tt, set_trace (trace s ++ [e]) s).

Definition table_get (k : string) : M (option attrs) :=
  fun s => (Ok (Table.get k (table s)), s).

Definition table_put (k : string) (v : attrs) : M unit :=
  fun s => (Ok tt, set_table (Table.put k v (table s)) s).

Definition table_delete (k : string) : M unit :=
  fun s => (Ok tt, set_table (Table.delete k (table s)) s).

Definition table_query (from_key to_key : option Z) : M (list (string * attrs)) :=
  fun s => (Ok (Table.query "_updated" from_key to_key (table s)), s).

(** [d[k]] on an attribute map. *)
Definition getitem (d : attrs) (k : string) : result value :=
  match d !! k with
  | Some v => Ok v
  | None => Raise (KeyError k)
  end.

(** What one HTTP GET yields: no response (an error or a non-2xx status,
    or the task cancelled while it waits), or a body read line by line,
    whose reading may itself end in an exception. *)
Inductive http_response :=
| Refused (e : exn)
| Streamed (lines : list string) (broken : option exn).

(** What the surroundings supply to one step of the background task. *)
Record stimulus := {
  response : http_response;
  seed : Z;
  fuel : nat
}.

Section Methods.

(** The wall clock in milliseconds: [clk n] is what the [n]-th call of
    [utc_millisec] returns. *)
Variable clk : nat → Z.
Variable cfg : config.
Context {hooks : Hooks}.

Definition utc_millisec : M Z :=
  fun s => (Ok (clk (ticks s)), set_ticks (S (ticks s)) s).

(** [_polling_loop], lines 61-73: trimming, the empty and comment
    filters, the token selection.  [None] is a [continue]. *)
Definition select (line : string) : result (option string) :=
  let line := strip line in
  if String.eqb line "" then Ok None
  else if match cchar cfg with
          | Some c => startswith line c
          | None => false
          end then Ok None
  else match split_char cfg with
       | None => Ok (Some line)
       | Some sc =>
           match split line sc with
           | Raise e => Raise e
           | Ok toks =>
               if Z.of_nat (List.length toks) <? split_pos cfg + 1 then Ok None
               else match index toks (split_pos cfg) with
                    | Raise e => Raise e
                    | Ok tok => Ok (Some (strip tok))
                    end
           end
       end.

(** [_polling_loop], lines 61-77: from a raw line to the indicator and
    its attributes; [None] is a [continue]. *)
Definition parse (line : string) : result (option (string * attrs)) :=
  match select line with
  | Raise e => Raise e
  | Ok None => Ok None
  | Ok (Some line) =>
      match process_line cfg line with
      | Raise e => Raise e
      | Ok (None, _) => Ok None
      | Ok (Some indicator, attributes) => Ok (Some (indicator, attributes))
      end
  end.

(** [send_update], lines 89-92. *)
Definition send_update (ev : option attrs) (attributes : attrs) : bool :=
  match ev with
  | Some old =>
      if negb (force_updates cfg)
      then if values_compare old attributes then false else true
      else true
  | None => true
  end.

(** [_polling_loop], lines 79-99. *)
Definition reconcile (indicator : string) (attributes : attrs) : M unit :=
  let attributes := <["sources" := VList [source_name cfg]]> attributes in
  let! u := utc_millisec in
  let attributes := <["_updated" := VInt u]> attributes in
  let! ev := table_get indicator in
  let! attributes := match ev with
                     | Some old =>
                         let! fs := lift (getitem old "first_seen") in
                         ret (<["first_seen" := fs]> attributes)
                     | None =>
                         let! t := utc_millisec in
                         ret (<["first_seen" := VInt t]> attributes)
                     end in
  let! l := utc_millisec in
  let attributes := <["last_seen" := VInt l]> attributes in
  do! table_put indicator attributes in
  if send_update ev attributes
  then perform (EmitUpdate indicator attributes)
  else ret tt.

(** The body of the [for line in r.iter_lines()] loop. *)
Definition handle_line (line : string) : M unit :=
  let! p := lift (parse line) in
  match p with
  | None => ret tt
  | Some (indicator, attributes) => reconcile indicator attributes
  end.

(** [_polling_loop], lines 101-105. *)
Definition withdraw_stale (now : Z) : M unit :=
  let! q := table_query (Some 0) (Some (now - 1)) in
  for_each q (fun iv =>
    do! table_delete iv.1 in
    perform (EmitWithdraw iv.1 {["sources" := VList [source_name cfg]]})).

Definition _polling_loop (r : http_response) : M unit :=
  let! now := utc_millisec in
  match r with
  | Refused e => raise e
  | Streamed lines broken =>
      do! for_each lines handle_line in
      do! match broken with Some e => raise e | None => ret tt end in
      withdraw_stale now
  end.

(** [_run], lines 138-143: the overrun loop and the sleep.  [fuel] bounds
    the passes of the [while] made in one step; when it runs out the task
    is still inside the loop. *)
Fixpoint overrun (fuel : nat) (deltat : Z) : M pc :=
  if deltat <? 0 then
    match fuel with
    | O => ret (Spin deltat)
    | S fuel' =>
        do! perform LogWarning in
        overrun fuel' (deltat + interval cfg * 1000)
    end
  else
    do! perform (SleepMillis deltat) in
    ret (Loop 0).

(** [_run], lines 133-143. *)
Definition schedule (fuel : nat) (lastrun : Z) : M pc :=
  let! now := utc_millisec in
  let deltat := (lastrun + interval cfg * 1000) - now in
  overrun fuel deltat.

(** [_run], one pass of the [while True]. *)
Definition iteration (stim : stimulus) (tryn : Z) : M pc :=
  let! lastrun := utc_millisec in
  fun s =>
    match _polling_loop (response stim) s with
    | (Raise GreenletExit, s') => (Ok Done, s')
    | (Raise _, s') =>
        (do! perform LogException in
         let tryn := tryn + 1 in
         if tryn <? num_retries cfg
         then do! perform (SleepSeconds (randint 1 5 (seed stim))) in
              ret (Loop tryn)
         else schedule (fuel stim) lastrun) s'
    | (Ok _, s') => schedule (fuel stim) lastrun s'
    end.

(** [_run], lines 111-117. *)
Definition run_entry : M pc :=
  fun s =>
    (do! (if negb (reinit_flag s)
          then let! q := table_query None None in
               for_each q (fun iv => perform (EmitUpdate iv.1 iv.2))
          else ret tt) in
     ret (Loop 0)) s.

(** One step of [_run] from where it stands. *)
Definition _run (stim : stimulus) (p : pc) : M pc :=
  match p with
  | Entry => run_entry
  | Loop tryn => iteration stim tryn
  | Spin deltat => overrun (fuel stim) deltat
  | Done => ret Done
  end.

(** *** The RPC surface *)

Definition _send_indicators (source : option string)
    (from_key to_key : option Z) : M unit :=
  let! q := table_query from_key to_key in
  for_each q (fun iv => perform (RpcUpdate source iv.1 iv.2)).

Definition get (source : option string) (indicator : pyval)
  : M (option attrs) :=
  match indicator with
  | PyStr k | PyUnicode k => table_get k
  | _ => raise (ValueError "Invalid indicator type")
  end.

Definition get_all (source : option string) : M string :=
  do! _send_indicators source None None in
  ret "OK".

Definition get_range (source : option string) (index : pyval)
    (from_key to_key : option Z) : M string :=
  if (match index with PyNone => false | _ => true end)
     && ne_str index "_updated"
  then raise (ValueError "Index not found")
  else do! _send_indicators source from_key to_key in
       ret "OK".

Definition length (source : option string) : M nat :=
  fun s => (Ok (Table.num_indicators (table s)), s).

(** *** The control surface *)

Definition start (seed : Z) : M unit :=
  fun s =>
    match glet s with
    | Some _ => (Ok tt, s)
    | None =>
        let d := randint 0 2 seed in
        (Ok tt, set_glet (Some {| delay := d; at_pc := Entry |})
                  (set_trace (trace s ++ [SpawnLater d]) s))
    end.

Definition kill (g : greenlet) : greenlet :=
  {| delay := delay g; at_pc := Done |}.

Definition stop : M unit :=
  fun s =>
    match glet s with
    | None => (Ok tt, s)
    | Some g =>
        (do! for_each (active_requests s) (fun h => perform (KillRequest h)) in
         do! perform KillGlet in
         fun s' => (Ok tt, set_glet (Some (kill g)) s')) s
    end.

(** *** A node in operation *)

Inductive op :=
| Start (seed : Z)
| Stop
| Get (source : option string) (indicator : pyval)
| GetAll (source : option string)
| GetRange (source : option string) (index : pyval) (from_key to_key : option Z)
| Length (source : option string)
| Task (stim : stimulus).

(** The background task advances only once spawned; it keeps its place
    in the handle. *)
Definition task (stim : stimulus) (s : node) : node :=
  match glet s with
  | None => s
  | Some g =>
      match _run stim (at_pc g) s with
      | (Ok p, s') => set_glet (Some {| delay := delay g; at_pc := p |}) s'
      | (Raise _, s') => set_glet (Some (kill g)) s'
      end
  end.

Definition exec (s : node) (o : op) : node :=
  match o with
  | Start seed => (start seed s).2
  | Stop => (stop s).2
  | Get source indicator => (get source indicator s).2
  | GetAll source => (get_all source s).2
  | GetRange source index from_key to_key =>
      (get_range source index from_key to_key s).2
  | Length source => (length source s).2
  | Task stim => task stim s
  end.

Definition execs (s : node) (ops : list op) : node := foldl exec s ops.

End Methods.

(** *** Vocabulary of the properties *)

(** A computation leaves the component [f] of the node as it found it. *)
Definition keeps {A B} (f : node → B) (m : M A) : Prop :=
  ∀ s, f (m s).2 = f s.

(** The node holds the handle of a task that has ended. *)
Definition stopped (s : node) : Prop :=
  ∃ g, glet s = Some g ∧ at_pc g = Done.

(** The retry counter [tryn] of a task inside its loop: the overrun loop
    runs after [tryn = 0]. *)
Definition counter (p : pc) : option Z :=
  match p with
  | Loop tryn => Some tryn
  | Spin _ => Some 0
  | Entry | Done => None
  end.

(** Every record of the store carries a [first_seen]. *)
Definition seen (t : gmap string attrs) : Prop :=
  ∀ k r, t !! k = Some r → is_Some (r !! "first_seen").

(** The clock does not run backwards. *)
Definition monotone (clk : nat → Z) : Prop :=
  ∀ i j, (i ≤ j)%nat → clk i ≤ clk j.

(** Every timestamp of the store's index is a time since the epoch. *)
Definition since_epoch (t : gmap string attrs) : Prop :=
  ∀ k r u, t !! k = Some r → Table.index_value "_updated" r = Some u → 0 ≤ u.

(** The clock reads times since the epoch. *)
Definition after_epoch (clk : nat → Z) : Prop := ∀ n, 0 ≤ clk n.

(** The store as the polling loop keeps it. *)
Definition well_kept (t : gmap string attrs) : Prop := seen t ∧ since_epoch t.

(** The record of [k] was stamped at [T] or later. *)
Definition fresh (T : Z) (t : gmap string attrs) (k : string) : Prop :=
  ∃ r u, t !! k = Some r ∧ r !! "_updated" = Some (VInt u) ∧ T ≤ u.

(** The attributes [_polling_loop] sets on a record, lines 79-87, given the
    clock readings [u] and [l] and the value [fs] of [first_seen]. *)
Definition stamp (cfg : config) (attributes : attrs) (u : Z) (fs : value)
    (l : Z) : attrs :=
  <["last_seen" := VInt l]>
    (<["first_seen" := fs]>
       (<["_updated" := VInt u]>
          (<["sources" := VList [source_name cfg]]> attributes))).

End HttpFT.

Import Py HttpFT.

(* ===================================================================== *)
(** ** Concrete nodes                                                     *)
(* ===================================================================== *)

Definition no_config : raw_config := {|
  raw_source_name := None; raw_url := None; raw_cchar := None;
  raw_split_char := None; raw_split_pos := None; raw_attributes := None;
  raw_interval := None; raw_force_updates := None;
  raw_polling_timeout := None; raw_num_retries := None
|}.

(** The defaults of [configure] for a node called [feed]. *)
Definition feed : config := configure "feed" no_config.

(** A comma-separated feed whose indicator is the second field. *)
Definition csv_feed : config := configure "csv" {|
  raw_source_name := None; raw_url := Some "https://feeds.example/list.csv";
  raw_cchar := Some "#"; raw_split_char := Some ","; raw_split_pos := Some 1;
  raw_attributes := None; raw_interval := None; raw_force_updates := None;
  raw_polling_timeout := None; raw_num_retries := None
|}.

(** No URL, one second between cycles, a single attempt per cycle. *)
Definition hasty_feed : config := configure "hasty" {|
  raw_source_name := None; raw_url := None; raw_cchar := None;
  raw_split_char := None; raw_split_pos := None; raw_attributes := None;
  raw_interval := Some 1; raw_force_updates := None;
  raw_polling_timeout := None; raw_num_retries := Some 1
|}.

(** A clock that advances ten milliseconds between two readings, and one
    that is read twice within the same millisecond. *)
Definition ticking (n : nat) : Z := 10 * Z.of_nat n.
Definition frozen (n : nat) : Z := 1000.

(** A wall clock that reads 5000 when the cycle starts and is then set back
    by [back] milliseconds, from where it advances a millisecond between two
    readings. *)
Definition set_back (back : Z) (n : nat) : Z :=
  match n with
  | O => 5000
  | S n => 5000 - back + Z.of_nat n
  end.

(** The node after a first cycle over the feed [b], [a]. *)
Definition after_first_cycle : node :=
  (_polling_loop (hooks := default_hooks) ticking feed
     (Streamed ["b"; "a"] None) (__init__ ∅ true)).2.

(* ===================================================================== *)
(** ** The stale scan on an answer of the store                           *)
(* ===================================================================== *)


(** [_polling_loop], lines 101-105: the body of the [for] loop run over
    the answer [q] of the store, in the order of [q]. *)
Definition withdraw_each (cfg : config) (q : list (string * attrs)) : M unit :=
  for_each q (fun iv =>
    do! table_delete iv.1 in
    perform (EmitWithdraw iv.1 {["sources" := VList [source_name cfg]]})).

(* ===================================================================== *)
(** ** Vocabulary of the further properties                               *)
(* ===================================================================== *)

(** A string holds a whitespace character. *)
Definition has_space (s : string) : bool :=
  existsb is_space (list_ascii_of_string s).

(** The line, trimmed, starts with the comment prefix. *)
Definition commented (cfg : config) (line : string) : bool :=
  match cchar cfg with
  | Some c => startswith (strip line) c
  | None => false
  end.

(** The indicator a line produces, if it produces one. *)
Definition produced (cfg : config) {hooks : Hooks} (line : string)
  : option string :=
  match parse cfg line with
  | Ok (Some (k, _)) => Some k
  | _ => None
  end.

Definition is_update (e : effect) : bool :=
  match e with EmitUpdate _ _ => true | _ => false end.

Definition is_withdraw (e : effect) : bool :=
  match e with EmitWithdraw _ _ => true | _ => false end.

Definition is_spawn (e : effect) : bool :=
  match e with SpawnLater _ => true | _ => false end.

(** The indicators of the updates, and of the withdraws, among some
    effects, in their order. *)
Definition updated_keys (evs : list effect) : list string :=
  omap (fun e => match e with EmitUpdate k _ => Some k | _ => None end) evs.

Definition withdrawn_keys (evs : list effect) : list string :=
  omap (fun e => match e with EmitWithdraw k _ => Some k | _ => None end) evs.

(** How many task handles a node holds: one or none. *)
Definition held (s : node) : nat :=
  match glet s with Some _ => 1%nat | None => O end.

(** How many tasks a trace has spawned. *)
Definition spawns (tr : list effect) : nat :=
  List.length (List.filter is_spawn tr).

(** A computation only appends effects of the kind [P] to the trace. *)
Definition emits {A} (P : effect → bool) (m : M A) : Prop :=
  ∀ s, ∃ evs, trace (m s).2 = (trace s ++ evs)%list ∧ forallb P evs = true.

(** Every record of the store is in the [_updated] index. *)
Definition indexed (t : gmap string attrs) : Prop :=
  ∀ k r, t !! k = Some r → is_Some (Table.index_value "_updated" r).

(** Every record of the store was stamped before [T - 1], and since the
    epoch. *)
Definition all_stale (T : Z) (t : gmap string attrs) : Prop :=
  ∀ k r, t !! k = Some r →
         ∃ u, Table.index_value "_updated" r = Some u ∧ 0 ≤ u < T - 1.

(** Several steps of [_run] in a row, one stimulus each. *)
Fixpoint run_steps (clk : nat → Z) (cfg : config) {hooks : Hooks}
    (stims : list stimulus) (p : pc) : M pc :=
  match stims with
  | [] => ret p
  | stim :: stims' =>
      bind (_run clk cfg stim p) (fun p' => run_steps clk cfg stims' p')
  end.

(** A request that fails, and not by cancellation. *)
Definition request_fails (stim : stimulus) : Prop :=
  ∃ e, response stim = Refused e ∧ e ≠ GreenletExit.

Definition no_spawn (e : effect) : bool := negb (is_spawn e).

(** The empty string as comment prefix. *)
Definition all_comments : config := configure "mute" {|
  raw_source_name := None; raw_url := None; raw_cchar := Some "";
  raw_split_char := None; raw_split_pos := None; raw_attributes := None;
  raw_interval := None; raw_force_updates := None;
  raw_polling_timeout := None; raw_num_retries := None
|}.

(** The defaults with [force_updates] on. *)
Definition forced_feed : config := configure "forced" {|
  raw_source_name := None; raw_url := None; raw_cchar := None;
  raw_split_char := None; raw_split_pos := None; raw_attributes := None;
  raw_interval := None; raw_force_updates := Some true;
  raw_polling_timeout := None; raw_num_retries := None
|}.

(** The defaults with an interval of 0 seconds. *)
Definition stalled_feed : config := configure "stalled" {|
  raw_source_name := None; raw_url := None; raw_cchar := None;
  raw_split_char := None; raw_split_pos := None; raw_attributes := None;
  raw_interval := Some 0; raw_force_updates := None;
  raw_polling_timeout := None; raw_num_retries := None
|}.

(* ===================================================================== *)
(** ** Properties                                                         *)
(* ===================================================================== *)

Ltac unfold_m :=
  unfold bind, ret, raise, lift, perform, table_get, table_put, table_delete,
    table_query, utc_millisec in *.

(** *** The string primitives on the lines of a feed *)

Example strip_feed_line : strip "  1.2.3.4 note  " = "1.2.3.4 note".
Proof. reflexivity. Qed.

Example split_on_comma : split "a,b,,c" "," = Ok ["a"; "b"; ""; "c"].
Proof. reflexivity. Qed.

Example split_on_long_separator : split "a--b-c--" "--" = Ok ["a"; "b-c"; ""].
Proof. reflexivity. Qed.

Example split_on_whitespace : split_ws " 1.2.3.4  note " = ["1.2.3.4"; "note"].
Proof. reflexivity. Qed.

Example index_from_the_end : index ["a"; "b"; "c"] (-1) = Ok "c".
Proof. reflexivity. Qed.

Example index_out_of_range : index ["a"; "b"; "c"] 3 = @Raise string IndexError.
Proof. reflexivity. Qed.

Lemma randint_range lo hi seed : lo ≤ hi → lo ≤ randint lo hi seed ≤ hi.
Proof.
  intros Hle. unfold randint.
  pose proof (Z.mod_pos_bound seed (hi - lo + 1)). lia.
Qed.

Lemma randint_onto lo hi d : lo ≤ d ≤ hi → randint lo hi (d - lo) = d.
Proof.
  intros Hd. unfold randint. rewrite Z.mod_small; lia.
Qed.

(** *** What a computation leaves alone *)

Section Frame.
Context {B : Type} (f : node → B).
Hypothesis f_trace : ∀ tr s, f (set_trace tr s) = f s.
Hypothesis f_table : ∀ t s, f (set_table t s) = f s.
Hypothesis f_ticks : ∀ n s, f (set_ticks n s) = f s.

Abbreviation keeps := (HttpFT.keeps f).

Lemma keeps_ret {A} (a : A) : keeps (ret a).
Proof. intros s. reflexivity. Qed.

Lemma keeps_raise {A} e : keeps (@raise A e).
Proof. intros s. reflexivity. Qed.

Lemma keeps_lift {A} (r : result A) : keeps (lift r).
Proof. intros s. reflexivity. Qed.

Lemma keeps_bind {A C} (m : M A) (k : A → M C) :
  keeps m → (∀ a, keeps (k a)) → keeps (bind m k).
Proof.
  intros Hm Hk s. unfold bind. specialize (Hm s).
  destruct (m s) as [[a|e] s']; simpl in *; [|done].
  rewrite Hk. done.
Qed.

Lemma keeps_perform e : keeps (perform e).
Proof. intros s. apply f_trace. Qed.

Lemma keeps_utc_millisec clk : keeps (utc_millisec clk).
Proof. intros s. apply f_ticks. Qed.

Lemma keeps_table_get k : keeps (table_get k).
Proof. intros s. reflexivity. Qed.

Lemma keeps_table_put k v : keeps (table_put k v).
Proof. intros s. apply f_table. Qed.

Lemma keeps_table_delete k : keeps (table_delete k).
Proof. intros s. apply f_table. Qed.

Lemma keeps_table_query a b : keeps (table_query a b).
Proof. intros s. reflexivity. Qed.

Lemma keeps_for_each {A} (l : list A) body :
  (∀ x, keeps (body x)) → keeps (for_each l body).
Proof.
  intros Hb. induction l as [|x l IH]; simpl.
  - apply keeps_ret.
  - apply keeps_bind; auto.
Qed.

Create HintDb keeps discriminated.
Hint Resolve keeps_ret keeps_raise keeps_lift keeps_perform
  keeps_utc_millisec keeps_table_get keeps_table_put keeps_table_delete
  keeps_table_query : keeps.

Ltac keeps_step :=
  first [ solve [auto with keeps]
        | apply keeps_bind; [|intros ?]
        | apply keeps_for_each; intros ?
        | match goal with |- keeps (match ?x with _ => _ end) => destruct x end
        | match goal with |- keeps (if ?x then _ else _) => destruct x end ].

Section WithMethods.
Variable clk : nat → Z.
Variable cfg : config.
Context {hooks : Hooks}.

Lemma keeps_reconcile k a : keeps (reconcile clk cfg k a).
Proof. unfold reconcile. repeat keeps_step. Qed.

Lemma keeps_handle_line line : keeps (handle_line clk cfg line).
Proof.
  unfold handle_line. repeat keeps_step.
Qed.

Lemma keeps_withdraw_stale now : keeps (withdraw_stale cfg now).
Proof. unfold withdraw_stale. repeat keeps_step. Qed.

Lemma keeps_polling_loop r : keeps (_polling_loop clk cfg r).
Proof.
  unfold _polling_loop. repeat keeps_step.
Qed.

Lemma keeps_overrun fuel deltat : keeps (overrun cfg fuel deltat).
Proof.
  revert deltat. induction fuel as [|fuel IH]; intros deltat; simpl.
  - repeat keeps_step.
  - destruct (deltat <? 0); repeat keeps_step.
Qed.

Lemma keeps_schedule fuel lastrun : keeps (schedule clk cfg fuel lastrun).
Proof. unfold schedule. repeat keeps_step. apply keeps_overrun. Qed.

Hint Resolve keeps_reconcile keeps_handle_line keeps_withdraw_stale
  keeps_polling_loop keeps_overrun keeps_schedule : keeps.

Lemma keeps_iteration stim tryn : keeps (iteration clk cfg stim tryn).
Proof.
  unfold iteration. apply keeps_bind; [auto with keeps|]. intros lastrun s.
  pose proof (keeps_polling_loop (response stim) s) as Hp.
  destruct (_polling_loop clk cfg (response stim) s) as [[u|e] s']; simpl in Hp.
  - rewrite keeps_schedule. done.
  - assert (Hrest : keeps
      (do! perform LogException in
       if tryn + 1 <? num_retries cfg
       then do! perform (SleepSeconds (randint 1 5 (seed stim))) in
            ret (Loop (tryn + 1))
       else schedule clk cfg (fuel stim) lastrun)).
    { repeat keeps_step. }
    destruct e; simpl; try (rewrite Hrest; done). done.
Qed.

Lemma keeps_run_entry : keeps run_entry.
Proof.
  intros s. unfold run_entry.
  assert (H : keeps
    (do! (if negb (reinit_flag s)
          then let! q := table_query None None in
               for_each q (fun iv => perform (EmitUpdate iv.1 iv.2))
          else ret tt) in
     ret (Loop 0))) by repeat keeps_step.
  apply H.
Qed.

Lemma keeps_run stim p : keeps (_run clk cfg stim p).
Proof.
  destruct p; simpl.
  - apply keeps_run_entry.
  - apply keeps_iteration.
  - apply keeps_overrun.
  - apply keeps_ret.
Qed.

Lemma keeps_send_indicators source a b : keeps (_send_indicators source a b).
Proof. unfold _send_indicators. repeat keeps_step. Qed.

Lemma keeps_get source indicator : keeps (get source indicator).
Proof. unfold get. repeat keeps_step. Qed.

Lemma keeps_get_all source : keeps (get_all source).
Proof.
  unfold get_all. apply keeps_bind; [apply keeps_send_indicators|].
  intros ?. apply keeps_ret.
Qed.

Lemma keeps_get_range source ix a b : keeps (get_range source ix a b).
Proof.
  unfold get_range.
  destruct (_ && _); [apply keeps_raise|].
  apply keeps_bind; [apply keeps_send_indicators|].
  intros ?. apply keeps_ret.
Qed.

Lemma keeps_length source : keeps (length source).
Proof. intros s. reflexivity. Qed.
End WithMethods.
End Frame.

Lemma set_glet_same s : set_glet (glet s) s = s.
Proof. destruct s; reflexivity. Qed.

Lemma set_trace_same s : set_trace (trace s) s = s.
Proof. destruct s; reflexivity. Qed.

Lemma set_trace_twice tr tr' s : set_trace tr' (set_trace tr s) = set_trace tr' s.
Proof. reflexivity. Qed.

Lemma greenlet_done g : at_pc g = Done → {| delay := delay g; at_pc := Done |} = g.
Proof. destruct g; simpl; intros ->; reflexivity. Qed.

(** A loop that only performs effects appends them in order and never
    raises. *)
Lemma for_each_perform {A} (l : list A) (e : A → effect) s :
  for_each l (fun x => perform (e x)) s
  = (Ok tt, set_trace (trace s ++ map e l) s).
Proof.
  revert s. induction l as [|x l IH]; intros s; simpl.
  - rewrite app_nil_r, set_trace_same. reflexivity.
  - unfold bind, perform at 1. rewrite IH. simpl.
    rewrite <- app_assoc. reflexivity.
Qed.

Lemma stop_eq s g :
  glet s = Some g →
  stop s = (Ok tt, set_glet (Some (kill g))
                     (set_trace (trace s ++ map KillRequest (active_requests s)
                                         ++ [KillGlet]) s)).
Proof.
  intros Hg. unfold stop. rewrite Hg. unfold bind.
  rewrite for_each_perform. unfold perform. simpl.
  rewrite <- app_assoc. reflexivity.
Qed.

Section Lifecycle.
Variable clk : nat → Z.
Variable cfg : config.
Context {hooks : Hooks}.

Abbreviation exec' := (exec clk cfg).
Abbreviation execs' := (execs clk cfg).

Lemma execs_snoc s ops o : execs' s (ops ++ [o]) = exec' (execs' s ops) o.
Proof. unfold execs. rewrite foldl_app. reflexivity. Qed.

(** No method touches the list of active requests. *)
Lemma exec_active_requests s o : active_requests (exec' s o) = active_requests s.
Proof.
  destruct o; simpl.
  - unfold start. destruct (glet s); reflexivity.
  - destruct (glet s) as [g|] eqn:Hg.
    + rewrite (stop_eq s g Hg). reflexivity.
    + unfold stop. rewrite Hg. reflexivity.
  - apply (keeps_get active_requests).
  - apply (keeps_get_all active_requests); done.
  - apply (keeps_get_range active_requests); done.
  - reflexivity.
  - unfold task. destruct (glet s) as [g|]; [|reflexivity].
    pose proof (keeps_run active_requests
                  ltac:(done) ltac:(done) ltac:(done) clk cfg stim (at_pc g) s) as H.
    destruct (_run clk cfg stim (at_pc g) s) as [[p|e] s']; simpl in *; done.
Qed.

Lemma execs_active_requests s ops :
  active_requests (execs' s ops) = active_requests s.
Proof.
  induction ops as [|o ops IH] using rev_ind; [reflexivity|].
  rewrite execs_snoc, exec_active_requests. exact IH.
Qed.

(** A stopped node stays stopped. *)
Lemma exec_stopped s o : stopped s → stopped (exec' s o).
Proof.
  intros (g & Hg & Hpc). destruct o; simpl.
  - unfold start. rewrite Hg. exists g; done.
  - rewrite (stop_eq s g Hg). exists (kill g); done.
  - exists g. split; [|done]. rewrite <- Hg. apply (keeps_get glet).
  - exists g. split; [|done]. rewrite <- Hg. apply (keeps_get_all glet); done.
  - exists g. split; [|done]. rewrite <- Hg. apply (keeps_get_range glet); done.
  - exists g; done.
  - unfold task. rewrite Hg, Hpc. simpl. exists g. split; [|done].
    rewrite greenlet_done by done. reflexivity.
Qed.

Lemma execs_stopped s ops : stopped s → stopped (execs' s ops).
Proof.
  intros Hs. induction ops as [|o ops IH] using rev_ind; [exact Hs|].
  rewrite execs_snoc. apply exec_stopped, IH.
Qed.

Lemma stopped_start s seed : stopped s → start seed s = (Ok tt, s).
Proof. intros (g & Hg & _). unfold start. rewrite Hg. reflexivity. Qed.

Lemma stopped_task s stim : stopped s → task clk cfg stim s = s.
Proof.
  intros (g & Hg & Hpc). unfold task. rewrite Hg, Hpc. simpl.
  rewrite greenlet_done by done. rewrite <- Hg. apply set_glet_same.
Qed.

Lemma start_some s seed : is_Some (glet (start seed s).2).
Proof. unfold start. destruct (glet s) eqn:Hg; simpl; [rewrite Hg|]; done. Qed.

Lemma stop_stopped s : is_Some (glet s) → stopped (stop s).2.
Proof. intros [g Hg]. rewrite (stop_eq s g Hg). exists (kill g); done. Qed.

End Lifecycle.

(** *** The RPC surface: argument checks *)

Lemma is_string_cases v :
  is_string v = true ↔ ∃ k, v = PyStr k ∨ v = PyUnicode k.
Proof.
  split.
  - destruct v; simpl; try discriminate; eauto.
  - intros [k [-> | ->]]; reflexivity.
Qed.

Lemma ne_str_cases v lit :
  ne_str v lit = false ↔ v = PyStr lit ∨ v = PyUnicode lit.
Proof.
  split.
  - destruct v; simpl; try discriminate;
      rewrite negb_false_iff, String.eqb_eq; intros ->; auto.
  - intros [-> | ->]; simpl; rewrite String.eqb_refl; reflexivity.
Qed.

Lemma get_range_accepts source index from_key to_key s :
  index = PyNone ∨ index = PyStr "_updated" ∨ index = PyUnicode "_updated" →
  get_range source index from_key to_key s
  = (Ok "OK",
     set_trace (trace s ++ map (fun iv => RpcUpdate source iv.1 iv.2)
                             (Table.query "_updated" from_key to_key (table s))) s).
Proof.
  intros Hix. unfold get_range.
  assert ((match index with PyNone => false | _ => true end
           && ne_str index "_updated") = false) as ->.
  { destruct Hix as [-> | [-> | ->]]; reflexivity. }
  unfold bind, _send_indicators, table_query, bind.
  rewrite (for_each_perform _ (fun iv => RpcUpdate source iv.1 iv.2)).
  reflexivity.
Qed.

Lemma get_range_rejects source index from_key to_key s :
  index ≠ PyNone → index ≠ PyStr "_updated" → index ≠ PyUnicode "_updated" →
  get_range source index from_key to_key s
  = (Raise (ValueError "Index not found"), s).
Proof.
  intros H1 H2 H3. unfold get_range.
  assert ((match index with PyNone => false | _ => true end
           && ne_str index "_updated") = true) as ->; [|reflexivity].
  apply andb_true_iff. split.
  - destruct index; done.
  - destruct (ne_str index "_updated") eqn:E; [done|].
    apply ne_str_cases in E as [-> | ->]; done.
Qed.

(** C4: [get] raises the invalid-argument error ([ValueError]) exactly when
    the indicator is not a string, and otherwise returns the stored record or
    absent; [get_range] raises it exactly when an index is given that is not
    ['_updated']; a rejected call leaves the whole node as it was: the store,
    the task handle and its schedule, and the trace of events sent, so no
    update reaches the caller. *)
Theorem C4_rpc_argument_checks (source : option string) :
  (∀ indicator s,
      ((∃ e, (get source indicator s).1 = Raise e) ↔ is_string indicator = false)
      ∧ (is_string indicator = false →
         get source indicator s = (Raise (ValueError "Invalid indicator type"), s))
      ∧ (∀ k, indicator = PyStr k ∨ indicator = PyUnicode k →
              get source indicator s = (Ok (table s !! k), s)))
  ∧ (∀ index from_key to_key s,
      ((∃ e, (get_range source index from_key to_key s).1 = Raise e)
       ↔ (index ≠ PyNone ∧ index ≠ PyStr "_updated" ∧ index ≠ PyUnicode "_updated"))
      ∧ ((index ≠ PyNone ∧ index ≠ PyStr "_updated" ∧ index ≠ PyUnicode "_updated") →
         get_range source index from_key to_key s
         = (Raise (ValueError "Index not found"), s))
      ∧ ((index = PyNone ∨ index = PyStr "_updated" ∨ index = PyUnicode "_updated") →
         (get_range source index from_key to_key s).1 = Ok "OK")).
Proof.
  split.
  - intros indicator s. split; [|split].
    + destruct indicator; simpl; split; intros H; try done; eauto;
        destruct H as [e H]; discriminate.
    + destruct indicator; simpl; intros H; done.
    + intros k [-> | ->]; reflexivity.
  - intros index from_key to_key s. split; [|split].
    + split.
      * intros [e He].
        assert (index = PyNone ∨ index ≠ PyNone) as [E1|E1]
          by (destruct index; auto; right; discriminate).
        { rewrite get_range_accepts in He by auto. discriminate. }
        destruct (ne_str index "_updated") eqn:E.
        -- repeat split; [done|..]; intros ->; cbv in E; discriminate.
        -- apply ne_str_cases in E.
           rewrite get_range_accepts in He by tauto. discriminate.
      * intros (H1 & H2 & H3). rewrite get_range_rejects by done. eauto.
    + intros (H1 & H2 & H3). apply get_range_rejects; done.
    + intros H. rewrite get_range_accepts by done. reflexivity.
Qed.

Example get_rejects_an_integer :
  get None (PyInt 123) (__init__ ∅ true)
  = (Raise (ValueError "Invalid indicator type"), __init__ ∅ true).
Proof. reflexivity. Qed.

Example get_range_rejects_bogus_index :
  get_range None (PyStr "bogus_index") None None (__init__ ∅ true)
  = (Raise (ValueError "Index not found"), __init__ ∅ true).
Proof. reflexivity. Qed.

(** *** The control surface *)

(** C7, as the code has it: [start] does nothing when a task handle exists,
    so a second call changes nothing and spawns nothing; otherwise it spawns
    the task after a delay of 0, 1 or 2 whole seconds, each of which can
    occur: the delay is at most 2, not strictly less than 2. *)
Theorem C7_start_once_with_jitter :
  (∀ seed s, is_Some (glet s) → start seed s = (Ok tt, s))
  ∧ (∀ seed seed' s, start seed' (start seed s).2 = (Ok tt, (start seed s).2))
  ∧ (∀ seed s, glet s = None →
       ∃ d, 0 ≤ d ≤ 2
            ∧ start seed s
              = (Ok tt, set_glet (Some {| delay := d; at_pc := Entry |})
                          (set_trace (trace s ++ [SpawnLater d]) s)))
  ∧ (∀ d s, 0 ≤ d ≤ 2 → glet s = None →
       ∃ seed, trace (start seed s).2 = (trace s ++ [SpawnLater d])%list).
Proof.
  repeat split.
  - intros seed s [g Hg]. unfold start. rewrite Hg. reflexivity.
  - intros seed seed' s. destruct (start_some s seed) as [g Hg].
    unfold start at 1. rewrite Hg. reflexivity.
  - intros seed s Hg. exists (randint 0 2 seed). split.
    + apply randint_range. lia.
    + unfold start. rewrite Hg. reflexivity.
  - intros d s Hd Hg. exists (d - 0). unfold start. rewrite Hg. simpl.
    rewrite randint_onto by lia. reflexivity.
Qed.

(** C7, as stated, fails: on a fresh node the generator may draw 2, and the
    first cycle is then scheduled after exactly 2 seconds. *)
Lemma C7_delay_of_two_seconds :
  (start 2 (__init__ ∅ true)).2
  = set_glet (Some {| delay := 2; at_pc := Entry |})
      (set_trace [SpawnLater 2] (__init__ ∅ true))
  ∧ ¬ (2 < 2).
Proof. split; [reflexivity | lia]. Qed.

(** C8: [stop] never clears the task handle; after [start] followed by
    [stop] the handle is there in every later state, whatever methods and
    task steps follow, and every later [start] returns without spawning: the
    node stays as it is, and its task makes no further step. *)
Theorem C8_no_restart_after_stop (clk : nat → Z) (cfg : config) (hooks : Hooks) :
  (∀ s, is_Some (glet s) → is_Some (glet (stop s).2))
  ∧ (∀ s seed ops,
       let s' := execs clk cfg (exec clk cfg (exec clk cfg s (Start seed)) Stop) ops in
       is_Some (glet s')
       ∧ stopped s'
       ∧ (∀ seed', start seed' s' = (Ok tt, s'))
       ∧ (∀ stim, exec clk cfg s' (Task stim) = s')).
Proof.
  split.
  - intros s Hs. destruct (stop_stopped s Hs) as (g & Hg & _). eauto.
  - intros s seed ops s'.
    assert (Hst : stopped s').
    { subst s'. apply execs_stopped. simpl. apply stop_stopped, start_some. }
    repeat split.
    + destruct Hst as (g & Hg & _). eauto.
    + exact Hst.
    + intros seed'. apply stopped_start, Hst.
    + intros stim. simpl. apply stopped_task, Hst.
Qed.

(** C9: nothing inserts into the list of active requests: it is empty when
    the node is built and in every state the node reaches, also after the
    polling loop has issued its requests, so [stop] kills no request: all it
    does is kill the task. *)
Theorem C9_active_requests_stay_empty (clk : nat → Z) (cfg : config) (hooks : Hooks) :
  ∀ t reinit ops,
    let s := execs clk cfg (__init__ t reinit) ops in
    active_requests s = []
    ∧ (∀ o, active_requests (exec clk cfg s o) = [])
    ∧ (∀ g, glet s = Some g →
            stop s = (Ok tt, set_glet (Some (kill g))
                               (set_trace (trace s ++ [KillGlet]) s))).
Proof.
  intros t reinit ops s.
  assert (Ha : active_requests s = []).
  { subst s. rewrite execs_active_requests. reflexivity. }
  repeat split.
  - exact Ha.
  - intros o. rewrite exec_active_requests. exact Ha.
  - intros g Hg. rewrite (stop_eq s g Hg), Ha. reflexivity.
Qed.

(** *** Scheduling and retries: [_run] *)

Section Scheduling.
Variable clk : nat → Z.
Variable cfg : config.
Context {hooks : Hooks}.

Lemma overrun_nonneg fuel deltat s :
  0 ≤ deltat →
  overrun cfg fuel deltat s
  = (Ok (Loop 0), set_trace (trace s ++ [SleepMillis deltat]) s).
Proof.
  intros Hd. assert ((deltat <? 0) = false) as E by lia.
  destruct fuel; simpl; rewrite E; reflexivity.
Qed.

Lemma overrun_neg fuel deltat s :
  deltat < 0 →
  overrun cfg (S fuel) deltat s
  = overrun cfg fuel (deltat + interval cfg * 1000)
      (set_trace (trace s ++ [LogWarning]) s).
Proof.
  intros Hd. assert ((deltat <? 0) = true) as E by lia.
  simpl. rewrite E. reflexivity.
Qed.

(** With a positive interval the overrun loop ends after finitely many
    passes, one warning each, on the least non-negative value. *)
Lemma overrun_finishes :
  0 < interval cfg →
  ∀ (m : nat) deltat, - deltat ≤ Z.of_nat m →
    ∃ n : nat,
      let r := deltat + Z.of_nat n * (interval cfg * 1000) in
      (∀ fuel s, (n ≤ fuel)%nat →
         overrun cfg fuel deltat s
         = (Ok (Loop 0),
            set_trace (trace s ++ replicate n LogWarning ++ [SleepMillis r]) s))
      ∧ 0 ≤ r
      ∧ (n = O ↔ 0 ≤ deltat)
      ∧ (deltat < 0 → r < interval cfg * 1000).
Proof.
  intros Hpos m. induction m as [|m IH]; intros deltat Hm.
  - exists O. cbv zeta.
    replace (deltat + Z.of_nat 0 * (interval cfg * 1000)) with deltat by lia.
    repeat split; try lia.
    intros fuel s _. rewrite overrun_nonneg by lia. reflexivity.
  - destruct (Z_lt_le_dec deltat 0) as [Hneg|Hnn].
    + destruct (IH (deltat + interval cfg * 1000) ltac:(lia))
        as (n & Hrun & Hr & Hz & Hlt).
      exists (S n). cbv zeta in *.
      replace (deltat + Z.of_nat (S n) * (interval cfg * 1000))
        with (deltat + interval cfg * 1000 + Z.of_nat n * (interval cfg * 1000))
        by lia.
      repeat split; try lia.
      intros fuel s Hf. destruct fuel as [|fuel]; [lia|].
      rewrite overrun_neg by lia. rewrite Hrun by lia. simpl.
      rewrite <- app_assoc. reflexivity.
    + exists O. cbv zeta.
      replace (deltat + Z.of_nat 0 * (interval cfg * 1000)) with deltat by lia.
      repeat split; try lia.
      intros fuel s _. rewrite overrun_nonneg by lia. reflexivity.
Qed.

(** Wherever the scheduling step stands, the retry counter is 0. *)
Lemma overrun_counter fuel deltat s :
  ∃ p, (overrun cfg fuel deltat s).1 = Ok p ∧ counter p = Some 0.
Proof.
  revert deltat s. induction fuel as [|fuel IH]; intros deltat s.
  - simpl. destruct (deltat <? 0); simpl; eauto.
  - destruct (Z_lt_le_dec deltat 0).
    + rewrite overrun_neg by done. apply IH.
    + rewrite overrun_nonneg by done. simpl. eauto.
Qed.

Lemma schedule_counter fuel lastrun s :
  ∃ p, (schedule clk cfg fuel lastrun s).1 = Ok p ∧ counter p = Some 0.
Proof. unfold schedule. unfold_m. apply overrun_counter. Qed.

Lemma iteration_eq stim tryn s :
  iteration clk cfg stim tryn s
  = match _polling_loop clk cfg (response stim) (set_ticks (S (ticks s)) s) with
    | (Raise GreenletExit, s') => (Ok Done, s')
    | (Raise _, s') =>
        if tryn + 1 <? num_retries cfg
        then (Ok (Loop (tryn + 1)),
              set_trace (trace s' ++ [LogException;
                                      SleepSeconds (randint 1 5 (seed stim))]) s')
        else schedule clk cfg (fuel stim) (clk (ticks s))
               (set_trace (trace s' ++ [LogException]) s')
    | (Ok _, s') => schedule clk cfg (fuel stim) (clk (ticks s)) s'
    end.
Proof.
  unfold iteration. unfold bind at 1. unfold utc_millisec at 1.
  destruct (_polling_loop _ _ _ _) as [[u|e] s']; [reflexivity|].
  destruct e; try reflexivity;
    unfold bind, perform; destruct (tryn + 1 <? num_retries cfg);
    simpl; rewrite <- ?app_assoc; reflexivity.
Qed.
End Scheduling.

(** C5: after a failed cycle, counted [tryn + 1]: below [num_retries] the
    loop logs, sleeps the whole number of seconds that [random.randint(1,
    5)] draws, which lies between 1 and 5 and can be any of the five, and
    is back at the top of its loop with the incremented counter, without
    reading the clock or sleeping the interval; once [num_retries] is
    reached it logs and goes on to the scheduling step, as after a
    successful cycle, and in both of these cases the counter is 0 from then
    on. *)
Theorem C5_retry_policy (clk : nat → Z) (cfg : config) (hooks : Hooks) :
  ∀ stim tryn s,
    let lastrun := clk (ticks s) in
    let poll := _polling_loop clk cfg (response stim) (set_ticks (S (ticks s)) s) in
    let retried (d : Z) : result pc * node :=
      (Ok (Loop (tryn + 1)),
       set_trace (trace poll.2 ++ [LogException; SleepSeconds d]) poll.2) in
    (∀ e, poll.1 = Raise e → e ≠ GreenletExit → tryn + 1 < num_retries cfg →
       iteration clk cfg stim tryn s = retried (randint 1 5 (seed stim))
       ∧ 1 ≤ randint 1 5 (seed stim) ≤ 5
       ∧ ∀ d, 1 ≤ d ≤ 5 →
              ∃ stim', response stim' = response stim
                       ∧ fuel stim' = fuel stim
                       ∧ randint 1 5 (seed stim') = d
                       ∧ iteration clk cfg stim' tryn s = retried d)
    ∧ (∀ e, poll.1 = Raise e → e ≠ GreenletExit → num_retries cfg ≤ tryn + 1 →
         iteration clk cfg stim tryn s
         = schedule clk cfg (fuel stim) lastrun
             (set_trace (trace poll.2 ++ [LogException]) poll.2)
         ∧ ∃ p, (iteration clk cfg stim tryn s).1 = Ok p ∧ counter p = Some 0)
    ∧ (∀ u, poll.1 = Ok u →
         iteration clk cfg stim tryn s
         = schedule clk cfg (fuel stim) lastrun poll.2
         ∧ ∃ p, (iteration clk cfg stim tryn s).1 = Ok p ∧ counter p = Some 0).
Proof.
  intros stim tryn s lastrun poll retried.
  assert (Hretry : ∀ stim' e,
            response stim' = response stim →
            poll.1 = Raise e → e ≠ GreenletExit → tryn + 1 < num_retries cfg →
            iteration clk cfg stim' tryn s = retried (randint 1 5 (seed stim'))).
  { intros stim' e Hresp He Hne Hlt. rewrite iteration_eq, Hresp.
    fold poll. subst retried. cbv beta.
    destruct poll as [[u|e'] s'] eqn:Hp; simpl in *; [discriminate|].
    injection He as ->.
    assert ((tryn + 1 <? num_retries cfg) = true) as -> by lia.
    destruct e; done. }
  pose proof (iteration_eq clk cfg stim tryn s) as Hit.
  fold poll in Hit. fold lastrun in Hit.
  split; [|split].
  - intros e He Hne Hlt. split; [exact (Hretry stim e eq_refl He Hne Hlt)|].
    split; [apply randint_range; lia|].
    intros d Hd.
    exists {| response := response stim; seed := d - 1; fuel := fuel stim |}.
    split; [reflexivity|]. split; [reflexivity|].
    split; [apply randint_onto; exact Hd|].
    rewrite <- (randint_onto 1 5 d Hd) at 2.
    exact (Hretry {| response := response stim; seed := d - 1;
                     fuel := fuel stim |} e eq_refl He Hne Hlt).
  - intros e He Hne Hge.
    destruct poll as [[u|e'] s'] eqn:Hp; simpl in *; [discriminate|].
    injection He as ->.
    assert ((tryn + 1 <? num_retries cfg) = false) as E by lia.
    rewrite E in Hit.
    assert (iteration clk cfg stim tryn s
            = schedule clk cfg (fuel stim) lastrun
                (set_trace (trace s' ++ [LogException]) s')) as Hs
      by (destruct e; done).
    split; [exact Hs|]. rewrite Hs. apply schedule_counter.
  - intros u Hu.
    destruct poll as [[u'|e'] s'] eqn:Hp; simpl in *; [|discriminate].
    split; [exact Hit|]. rewrite Hit. apply schedule_counter.
Qed.

(** C6, as the code has it: with a positive interval the overrun loop ends,
    after one warning per pass, and the time slept is cycle-start + interval
    - now plus the least multiple of the interval that makes it non-negative;
    it is at most the interval exactly when the clock has not run backwards
    since the cycle started, and strictly less exactly when the clock has
    advanced since then: a cycle over within the millisecond it started in
    is followed by a sleep of the whole interval. *)
Theorem C6_overrun_loop_ends (clk : nat → Z) (cfg : config) :
  0 < interval cfg →
  ∀ lastrun s,
    let now := clk (ticks s) in
    let step := interval cfg * 1000 in
    ∃ (n : nat) (remaining : Z),
      (∀ fuel, (n ≤ fuel)%nat →
         schedule clk cfg fuel lastrun s
         = (Ok (Loop 0),
            set_trace (trace s ++ replicate n LogWarning ++ [SleepMillis remaining])
              (set_ticks (S (ticks s)) s)))
      ∧ remaining = lastrun + step - now + Z.of_nat n * step
      ∧ 0 ≤ remaining
      ∧ (n = O ↔ 0 ≤ lastrun + step - now)
      ∧ (remaining ≤ step ↔ lastrun ≤ now)
      ∧ (remaining < step ↔ lastrun < now).
Proof.
  intros Hpos lastrun s now step.
  destruct (overrun_finishes cfg Hpos (Z.to_nat (- (lastrun + step - now)))
              (lastrun + step - now) ltac:(lia)) as (n & Hrun & Hr & Hz & Hlt).
  cbv zeta in *. fold step in Hrun, Hr, Hz, Hlt |- *.
  exists n, (lastrun + step - now + Z.of_nat n * step).
  split; [|split; [reflexivity|split; [exact Hr|split; [exact Hz|]]]].
  - intros fuel Hf. unfold schedule, bind, utc_millisec.
    fold now. fold step. rewrite Hrun by done. reflexivity.
  - destruct (Z_lt_le_dec (lastrun + step - now) 0) as [Hneg|Hnn].
    + specialize (Hlt Hneg). lia.
    + assert (n = O) as -> by (apply Hz; exact Hnn). lia.
Qed.

(** *** The store's index scan *)

Section Scan.
Variable iname : string.
Variables from_key to_key : option Z.

#[local] Instance stamp_le_total : Total Table.stamp_le.
Proof. intros x y. unfold Table.stamp_le. lia. Qed.

Lemma elem_of_scan t z k r :
  (z, (k, r)) ∈ Table.scan iname from_key to_key t
  ↔ t !! k = Some r
    ∧ Table.index_value iname r = Some z
    ∧ Table.in_range from_key to_key z = true.
Proof.
  unfold Table.scan. rewrite merge_sort_Permutation, list_elem_of_omap.
  split.
  - intros ([k' r'] & Hin & Hentry). apply elem_of_map_to_list in Hin.
    unfold Table.index_entry in Hentry. simpl in Hentry.
    destruct (Table.index_value iname r') as [z'|] eqn:Hz; [|discriminate].
    destruct (Table.in_range from_key to_key z') eqn:Hr; [|discriminate].
    simplify_eq. done.
  - intros (Hk & Hz & Hr). exists (k, r). split.
    + apply elem_of_map_to_list, Hk.
    + unfold Table.index_entry. simpl. rewrite Hz, Hr. reflexivity.
Qed.

Lemma scan_sorted t : Sorted Z.le (Table.scan iname from_key to_key t).*1.
Proof.
  apply (Sorted_fmap fst Table.stamp_le Z.le).
  - intros x y H. exact H.
  - apply (Sorted_merge_sort Table.stamp_le).
Qed.

Lemma elem_of_query t k r :
  (k, r) ∈ Table.query iname from_key to_key t
  ↔ t !! k = Some r
    ∧ ∃ z, Table.index_value iname r = Some z
           ∧ Table.in_range from_key to_key z = true.
Proof.
  unfold Table.query. rewrite list_elem_of_fmap. split.
  - intros ([z [k' r']] & Heq & Hin). simpl in Heq. simplify_eq.
    apply elem_of_scan in Hin as (? & ? & ?). eauto.
  - intros (Hk & z & Hz & Hr). exists (z, (k, r)). split; [done|].
    apply elem_of_scan. done.
Qed.
End Scan.

Lemma in_range_bounds a b z :
  Table.in_range (Some a) (Some b) z = true ↔ a ≤ z < b.
Proof. unfold Table.in_range. rewrite andb_true_iff. lia. Qed.

(** Deleting a list of keys one after the other. *)
Lemma lookup_foldl_delete (q : list (string * attrs)) (t : gmap string attrs) k :
  foldl (fun t iv => Table.delete iv.1 t) t q !! k
  = if decide (k ∈ q.*1) then None else t !! k.
Proof.
  revert t. induction q as [|[k' r'] q IH]; intros t.
  - reflexivity.
  - change (foldl (fun t iv => Table.delete iv.1 t) (Table.delete k' t) q !! k
            = if decide (k ∈ k' :: q.*1) then None else t !! k).
    rewrite IH. unfold Table.delete.
    destruct (decide (k ∈ q.*1)) as [Hin|Hnin].
    + rewrite decide_True by (right; exact Hin). reflexivity.
    + destruct (decide (k = k')) as [->|Hne].
      * rewrite decide_True by left. apply lookup_delete_eq.
      * rewrite decide_False.
        -- apply lookup_delete_ne. congruence.
        -- intros [?|?]%elem_of_cons; done.
Qed.

Lemma for_each_delete_perform (q : list (string * attrs))
    (e : string * attrs → effect) s :
  for_each q (fun iv => do! table_delete iv.1 in perform (e iv)) s
  = (Ok tt, set_trace (trace s ++ map e q)
              (set_table (foldl (fun t iv => Table.delete iv.1 t) (table s) q) s)).
Proof.
  revert s. induction q as [|iv q IH]; intros s; simpl.
  - rewrite app_nil_r. destruct s; reflexivity.
  - unfold bind at 1. unfold bind at 1. unfold table_delete at 1, perform at 1.
    rewrite IH. simpl. rewrite <- app_assoc. reflexivity.
Qed.

Lemma withdraw_stale_eq cfg now s :
  let q := Table.query "_updated" (Some 0) (Some (now - 1)) (table s) in
  withdraw_stale cfg now s
  = (Ok tt,
     set_trace (trace s ++ map (fun iv => EmitWithdraw iv.1
                                  {["sources" := VList [source_name cfg]]}) q)
       (set_table (foldl (fun t iv => Table.delete iv.1 t) (table s) q) s)).
Proof.
  intros q. unfold withdraw_stale, bind at 1, table_query. fold q.
  apply (for_each_delete_perform q
           (fun iv => EmitWithdraw iv.1 {["sources" := VList [source_name cfg]]})).
Qed.

(** *** Reconciliation of one indicator *)

Section Reconcile.
Variable clk : nat → Z.
Variable cfg : config.
Context {hooks : Hooks}.

Lemma stamp_updated a u fs l : stamp cfg a u fs l !! "_updated" = Some (VInt u).
Proof.
  unfold stamp. rewrite !lookup_insert_ne by done. apply lookup_insert_eq.
Qed.

Lemma stamp_first_seen a u fs l : stamp cfg a u fs l !! "first_seen" = Some fs.
Proof.
  unfold stamp. rewrite lookup_insert_ne by done. apply lookup_insert_eq.
Qed.

Lemma stamp_last_seen a u fs l : stamp cfg a u fs l !! "last_seen" = Some (VInt l).
Proof. unfold stamp. apply lookup_insert_eq. Qed.

Lemma stamp_sources a u fs l :
  stamp cfg a u fs l !! "sources" = Some (VList [source_name cfg]).
Proof.
  unfold stamp. rewrite !lookup_insert_ne by done. apply lookup_insert_eq.
Qed.

Lemma stamp_other a u fs l key :
  key ∉ ["sources"; "_updated"; "first_seen"; "last_seen"] →
  stamp cfg a u fs l !! key = a !! key.
Proof.
  intros Hk. unfold stamp.
  rewrite !lookup_insert_ne; [done|intros <-; apply Hk..].
  - do 0 right; left.
  - do 1 right; left.
  - do 2 right; left.
  - do 3 right; left.
Qed.

(** First sighting: three clock readings, an upsert, an update. *)
Lemma reconcile_new k a s :
  table s !! k = None →
  let n := ticks s in
  let a' := stamp cfg a (clk n) (VInt (clk (S n))) (clk (S (S n))) in
  reconcile clk cfg k a s
  = (Ok tt, set_trace (trace s ++ [EmitUpdate k a'])
              (set_table (<[k := a']> (table s))
                 (set_ticks (S (S (S n))) s))).
Proof.
  intros Hk n a'. unfold reconcile, bind, utc_millisec, table_get, Table.get.
  simpl. rewrite Hk. reflexivity.
Qed.

(** Later sighting: two clock readings, an upsert, an update when
    [send_update] says so. *)
Lemma reconcile_old k a s old fs :
  table s !! k = Some old → old !! "first_seen" = Some fs →
  let n := ticks s in
  let a' := stamp cfg a (clk n) fs (clk (S n)) in
  let s' := set_table (<[k := a']> (table s)) (set_ticks (S (S n)) s) in
  reconcile clk cfg k a s
  = (Ok tt, if send_update cfg (Some old) a'
            then set_trace (trace s ++ [EmitUpdate k a']) s'
            else s').
Proof.
  intros Hk Hfs n a' s'. subst s' a' n.
  unfold reconcile, bind, utc_millisec, table_get, Table.get, lift, getitem,
    send_update, stamp.
  simpl. rewrite Hk, Hfs. simpl.
  destruct (negb (force_updates cfg)); [|reflexivity].
  destruct (values_compare old _); reflexivity.
Qed.

Lemma reconcile_no_first_seen k a s old :
  table s !! k = Some old → old !! "first_seen" = None →
  reconcile clk cfg k a s
  = (Raise (KeyError "first_seen"), set_ticks (S (ticks s)) s).
Proof.
  intros Hk Hfs.
  unfold reconcile, bind, utc_millisec, table_get, Table.get, lift, getitem.
  simpl. rewrite Hk, Hfs. reflexivity.
Qed.

(** What every successful reconciliation does. *)
Lemma reconcile_ok k a s :
  seen (table s) →
  ∃ a' s',
    reconcile clk cfg k a s = (Ok tt, s')
    ∧ table s' = <[k := a']> (table s)
    ∧ a' !! "_updated" = Some (VInt (clk (ticks s)))
    ∧ is_Some (a' !! "first_seen")
    ∧ (ticks s ≤ ticks s')%nat.
Proof.
  intros Hseen. destruct (table s !! k) as [old|] eqn:Hk.
  - destruct (Hseen k old Hk) as [fs Hfs].
    eexists _, _. split; [apply (reconcile_old k a s old fs Hk Hfs)|].
    cbv zeta. destruct (send_update _ _ _); simpl;
      rewrite stamp_updated, stamp_first_seen; repeat split; eauto; lia.
  - eexists _, _. split; [apply (reconcile_new k a s Hk)|].
    cbv zeta. simpl. rewrite stamp_updated, stamp_first_seen.
    repeat split; eauto; lia.
Qed.

Lemma handle_line_skip line s :
  parse cfg line = Ok None → handle_line clk cfg line s = (Ok tt, s).
Proof. intros Hp. unfold handle_line, bind, lift. rewrite Hp. reflexivity. Qed.

Lemma handle_line_indicator line k a s :
  parse cfg line = Ok (Some (k, a)) →
  handle_line clk cfg line s = reconcile clk cfg k a s.
Proof. intros Hp. unfold handle_line, bind, lift. rewrite Hp. reflexivity. Qed.

Lemma handle_line_raise line e s :
  parse cfg line = Raise e → handle_line clk cfg line s = (Raise e, s).
Proof. intros Hp. unfold handle_line, bind, lift. rewrite Hp. reflexivity. Qed.

Lemma seen_insert t k a :
  seen t → is_Some (a !! "first_seen") → seen (<[k := a]> t).
Proof.
  intros Ht Ha k' r. rewrite lookup_insert. case_decide.
  - intros [= <-]. exact Ha.
  - apply Ht.
Qed.

Lemma fresh_insert T t k k' a u :
  a !! "_updated" = Some (VInt u) → T ≤ u →
  (k' = k ∨ fresh T t k') → fresh T (<[k := a]> t) k'.
Proof.
  intros Ha Hu Hk'. unfold fresh. rewrite lookup_insert. case_decide.
  - eauto.
  - destruct Hk' as [->|Hf]; [done|]. exact Hf.
Qed.

(** The lines of a cycle: every indicator they produce ends up stamped no
    earlier than the start of the cycle. *)
Lemma lines_fresh T :
  monotone clk →
  ∀ lines s s',
    seen (table s) → T ≤ clk (ticks s) →
    for_each lines (handle_line clk cfg) s = (Ok tt, s') →
    seen (table s')
    ∧ (ticks s ≤ ticks s')%nat
    ∧ (∀ k, fresh T (table s) k → fresh T (table s') k)
    ∧ (∀ line k a, line ∈ lines → parse cfg line = Ok (Some (k, a)) →
                   fresh T (table s') k).
Proof.
  intros Hmono lines. induction lines as [|line lines IH]; intros s s' Hseen HT Hrun.
  - simpl in Hrun. unfold ret in Hrun. simplify_eq.
    repeat split; auto. intros ? ? ? Hin. apply elem_of_nil in Hin. done.
  - simpl in Hrun. unfold bind in Hrun.
    destruct (handle_line clk cfg line s) as [[[]|e] s1] eqn:Hline; [|discriminate].
    assert (Hs1 : seen (table s1) ∧ (ticks s ≤ ticks s1)%nat
                  ∧ (∀ k, fresh T (table s) k → fresh T (table s1) k)
                  ∧ (∀ k a, parse cfg line = Ok (Some (k, a)) →
                            fresh T (table s1) k)).
    { destruct (parse cfg line) as [[[k a]|]|e] eqn:Hp.
      - rewrite (handle_line_indicator line k a s Hp) in Hline.
        destruct (reconcile_ok k a s Hseen) as (a' & s1' & Hr & Ht & Hu & Hfs & Hn).
        rewrite Hr in Hline. simplify_eq. rewrite Ht.
        repeat split.
        + apply seen_insert; done.
        + done.
        + intros k' Hf. eapply fresh_insert; eauto.
        + intros k' a0 [= <- <-]. eapply fresh_insert; eauto.
      - rewrite (handle_line_skip line s Hp) in Hline. simplify_eq.
        repeat split; auto. intros; discriminate.
      - rewrite (handle_line_raise line e s Hp) in Hline. discriminate. }
    destruct Hs1 as (Hseen1 & Hn1 & Hkeep1 & Hnew1).
    destruct (IH s1 s' Hseen1) as (Hseen' & Hn' & Hkeep' & Hnew'); [|done|].
    { etrans; [exact HT|]. apply Hmono. done. }
    repeat split; auto.
    + lia.
    + intros line' k a Hin Hp. apply elem_of_cons in Hin as [->|Hin]; eauto.
Qed.

(** One line, whatever comes of it: a parsing error leaves the node as it
    was, an indicator is stamped no earlier than [T]. *)
Lemma handle_line_fresh T line s :
  monotone clk → seen (table s) → T ≤ clk (ticks s) →
  let s1 := (handle_line clk cfg line s).2 in
  seen (table s1)
  ∧ T ≤ clk (ticks s1)
  ∧ (∀ k, fresh T (table s) k → fresh T (table s1) k)
  ∧ (∀ k a, parse cfg line = Ok (Some (k, a)) →
            (handle_line clk cfg line s).1 = Ok tt ∧ fresh T (table s1) k).
Proof.
  intros Hmono Hseen HT. cbv zeta.
  destruct (parse cfg line) as [[[k a]|]|e] eqn:Hp.
  - rewrite (handle_line_indicator line k a s Hp).
    destruct (reconcile_ok k a s Hseen) as (a' & s1 & Hr & Ht & Hu & Hfs & Hn).
    rewrite Hr. simpl. rewrite Ht. repeat split.
    + apply seen_insert; done.
    + etrans; [exact HT|]. apply Hmono, Hn.
    + intros k' Hf. eapply fresh_insert; eauto.
    + simplify_eq. eapply fresh_insert; eauto.
  - rewrite (handle_line_skip line s Hp). simpl.
    repeat split; auto; discriminate.
  - rewrite (handle_line_raise line e s Hp). simpl.
    repeat split; auto; discriminate.
Qed.

(** The lines of a cycle, whatever comes of them: what was stamped no
    earlier than [T] stays so. *)
Lemma lines_keep_fresh T lines :
  monotone clk →
  ∀ s, seen (table s) → T ≤ clk (ticks s) →
       let s' := (for_each lines (handle_line clk cfg) s).2 in
       seen (table s')
       ∧ ∀ k, fresh T (table s) k → fresh T (table s') k.
Proof.
  intros Hmono. induction lines as [|line lines IH]; intros s Hseen HT; simpl.
  - auto.
  - destruct (handle_line_fresh T line s Hmono Hseen HT)
      as (Hseen1 & HT1 & Hkeep1 & _).
    unfold bind.
    destruct (handle_line clk cfg line s) as [[[]|e] s1]; simpl in *; [|auto].
    destruct (IH s1 Hseen1 HT1) as [Hseen' Hkeep']. auto.
Qed.

(** An indicator whose line is reached, the lines before it parsing, is
    stamped no earlier than [T] when the loop over the lines is left,
    however it is left. *)
Lemma lines_reached_fresh T pre line post k a :
  monotone clk →
  (∀ l, l ∈ pre → ∃ p, parse cfg l = Ok p) →
  parse cfg line = Ok (Some (k, a)) →
  ∀ s, seen (table s) → T ≤ clk (ticks s) →
       fresh T (table (for_each (pre ++ line :: post) (handle_line clk cfg) s).2) k.
Proof.
  intros Hmono Hpre Hline. induction pre as [|l pre IH]; intros s Hseen HT; simpl.
  - destruct (handle_line_fresh T line s Hmono Hseen HT)
      as (Hseen1 & HT1 & _ & Hnew).
    destruct (Hnew k a Hline) as [Hok Hfresh].
    unfold bind.
    destruct (handle_line clk cfg line s) as [[[]|e] s1]; simpl in *;
      [|discriminate].
    apply (lines_keep_fresh T post Hmono s1 Hseen1 HT1), Hfresh.
  - destruct (handle_line_fresh T l s Hmono Hseen HT)
      as (Hseen1 & HT1 & _ & Hnew).
    assert ((handle_line clk cfg l s).1 = Ok tt) as Hok.
    { destruct (Hpre l ltac:(left)) as [[[k' a']|] Hp].
      - apply (Hnew k' a' Hp).
      - rewrite (handle_line_skip l s Hp). reflexivity. }
    unfold bind.
    destruct (handle_line clk cfg l s) as [[[]|e] s1]; simpl in *;
      [|discriminate].
    apply IH; [|done..]. intros l' Hl'. apply Hpre. right. exact Hl'.
Qed.

(** The lines of a cycle raise nothing when each of them parses and the
    store's records carry their [first_seen]. *)
Lemma lines_ok lines :
  (∀ line, line ∈ lines → ∃ p, parse cfg line = Ok p) →
  ∀ s, seen (table s) →
       ∃ s', for_each lines (handle_line clk cfg) s = (Ok tt, s').
Proof.
  induction lines as [|line lines IH]; intros Hparse s Hseen.
  - eexists. reflexivity.
  - simpl. unfold bind.
    destruct (Hparse line ltac:(left)) as [[[k a]|] Hp].
    + rewrite (handle_line_indicator line k a s Hp).
      destruct (reconcile_ok k a s Hseen) as (a' & s1 & Hr & Ht & _ & Hfs & _).
      rewrite Hr. apply IH.
      * intros l Hl. apply Hparse. right. done.
      * rewrite Ht. apply seen_insert; done.
    + rewrite (handle_line_skip line s Hp). apply IH; [|done].
      intros l Hl. apply Hparse. right. done.
Qed.

Lemma polling_loop_streamed lines s mid :
  for_each lines (handle_line clk cfg) (set_ticks (S (ticks s)) s) = (Ok tt, mid) →
  _polling_loop clk cfg (Streamed lines None) s
  = withdraw_stale cfg (clk (ticks s)) mid.
Proof.
  intros Hlines. unfold _polling_loop, bind at 1, utc_millisec.
  unfold bind at 1. rewrite Hlines. reflexivity.
Qed.

(** A record stamped since the cycle started outlives the stale scan. *)
Lemma fresh_withdraw_stale T s k :
  fresh T (table s) k → fresh T (table (withdraw_stale cfg T s).2) k.
Proof.
  intros (r & u & Hk & Hu & HT). rewrite withdraw_stale_eq. simpl.
  exists r, u. split; [|done].
  rewrite lookup_foldl_delete. case_decide as Hin; [|done].
  exfalso. apply list_elem_of_fmap in Hin as ([k' r'] & -> & Hin).
  apply elem_of_query in Hin as (Hk' & z & Hz & Hr). simpl in Hk.
  rewrite Hk in Hk'. simplify_eq.
  unfold Table.index_value in Hz. rewrite Hu in Hz. simplify_eq.
  apply in_range_bounds in Hr. lia.
Qed.

(** The same for a whole cycle, however it ends: on a line that does not
    parse, on a broken stream, or after the stale scan. *)
Lemma polling_loop_reached_fresh pre line post broken k a s :
  monotone clk → seen (table s) →
  (∀ l, l ∈ pre → ∃ p, parse cfg l = Ok p) →
  parse cfg line = Ok (Some (k, a)) →
  fresh (clk (ticks s))
    (table (_polling_loop clk cfg (Streamed (pre ++ line :: post) broken) s).2) k.
Proof.
  intros Hmono Hseen Hpre Hline.
  pose proof (lines_reached_fresh (clk (ticks s)) pre line post k a Hmono Hpre
                Hline (set_ticks (S (ticks s)) s) Hseen
                ltac:(apply Hmono; simpl; lia)) as Hfresh.
  unfold _polling_loop, bind at 1, utc_millisec. unfold bind at 1.
  destruct (for_each (pre ++ line :: post) (handle_line clk cfg) _)
    as [[[]|e] mid]; simpl in Hfresh; [|exact Hfresh].
  unfold bind at 1. destruct broken as [e|]; [exact Hfresh|].
  unfold ret at 1. apply fresh_withdraw_stale, Hfresh.
Qed.
End Reconcile.

Lemma ticking_monotone : monotone ticking.
Proof. intros i j Hij. unfold ticking. lia. Defined.

Example first_cycle_records :
  (table after_first_cycle !! "b") ≫= (.!! "_updated") = Some (VInt 10)
  ∧ (table after_first_cycle !! "a") ≫= (.!! "_updated") = Some (VInt 40)
  ∧ (table after_first_cycle !! "b") ≫= (.!! "first_seen") = Some (VInt 20)
  ∧ (table after_first_cycle !! "b") ≫= (.!! "last_seen") = Some (VInt 30)
  ∧ ticks after_first_cycle = 7%nat.
Proof. vm_compute. repeat split. Qed.

(** *** The reconciliation cycle *)

(** C10: a line that is not empty, is not a comment and has enough tokens
    can still make the cycle fail: with [split_char] set, a selected token
    that trims to the empty string reaches the default transform, whose
    whitespace split is empty, and indexing its first element raises
    [IndexError] out of the polling loop. *)
Theorem C10_empty_token_fails_cycle :
  ∃ (cfg : config) (line sep : string) (toks : list string) (tok : string),
    split_char cfg = Some sep
    ∧ strip line ≠ ""
    ∧ (∀ c, cchar cfg = Some c → startswith (strip line) c = false)
    ∧ split (strip line) sep = Ok toks
    ∧ split_pos cfg + 1 ≤ Z.of_nat (List.length toks)
    ∧ index toks (split_pos cfg) = Ok tok
    ∧ strip tok = ""
    ∧ split_ws (strip tok) = []
    ∧ _process_line cfg (strip tok) = Raise IndexError
    ∧ parse (hooks := default_hooks) cfg line = Raise IndexError
    ∧ ∀ clk rest s,
        _polling_loop (hooks := default_hooks) clk cfg (Streamed (line :: rest) None) s
        = (Raise IndexError, set_ticks (S (ticks s)) s).
Proof.
  exists csv_feed, "1.2.3.4, ", ",", ["1.2.3.4"; ""], "".
  split; [reflexivity|]. split; [discriminate|].
  split; [intros c [= <-]; reflexivity|].
  split; [reflexivity|]. split; [vm_compute; discriminate|].
  repeat split.
Qed.

(** C2: an indicator produced during a cycle with the attributes [a] is
    upserted into the store in every case, and the record written is the
    one an update carries: the attributes [a] of the line with [sources]
    set to the source name and the three timestamps set, every other
    attribute as the line gave it.  The update is emitted when no record
    existed, when [force_updates] is on, and, with [force_updates] off and
    a record present, exactly when the predicate on the old and the new
    record does not report equal, which the default predicate always
    does. *)
Theorem C2_emission_decision (clk : nat → Z) (cfg : config) (hooks : Hooks) :
  ∀ k a s,
    seen (table s) →
    ∃ a' s',
      reconcile clk cfg k a s = (Ok tt, s')
      ∧ (∃ fs l,
           a' = stamp cfg a (clk (ticks s)) fs l
           ∧ (∀ old, table s !! k = Some old →
                old !! "first_seen" = Some fs ∧ l = clk (S (ticks s)))
           ∧ (table s !! k = None →
                fs = VInt (clk (S (ticks s))) ∧ l = clk (S (S (ticks s)))))
      ∧ a' !! "sources" = Some (VList [source_name cfg])
      ∧ (∀ key, key ∉ ["sources"; "_updated"; "first_seen"; "last_seen"] →
           a' !! key = a !! key)
      ∧ table s' = <[k := a']> (table s)
      ∧ (table s !! k = None → trace s' = (trace s ++ [EmitUpdate k a'])%list)
      ∧ (∀ old, table s !! k = Some old → force_updates cfg = false →
           trace s' = (trace s ++ if values_compare old a' then []
                                  else [EmitUpdate k a'])%list)
      ∧ (∀ old, table s !! k = Some old → force_updates cfg = false →
           (∀ d1 d2, values_compare d1 d2 = _values_compare d1 d2) →
           trace s' = trace s)
      ∧ (force_updates cfg = true → trace s' = (trace s ++ [EmitUpdate k a'])%list).
Proof.
  intros k a s Hseen. destruct (table s !! k) as [old|] eqn:Hk.
  - destruct (Hseen k old Hk) as [fs Hfs].
    eexists _, _. split; [apply (reconcile_old clk cfg k a s old fs Hk Hfs)|].
    cbv zeta.
    split; [exists fs, (clk (S (ticks s))); split; [reflexivity|];
            split; [intros old' [= <-]; done|discriminate]|].
    split; [apply stamp_sources|]. split; [intros key; apply stamp_other|].
    unfold send_update.
    destruct (force_updates cfg); simpl.
    + repeat split; try done.
    + destruct (values_compare old _) eqn:Hcmp; simpl.
      * repeat split; try done.
        -- intros old' [= <-] _. rewrite Hcmp, app_nil_r. reflexivity.
      * repeat split; try done.
        -- intros old' [= <-] _. rewrite Hcmp. reflexivity.
        -- intros old' [= <-] _ Hdef. rewrite Hdef in Hcmp. discriminate.
  - eexists _, _. split; [apply (reconcile_new clk cfg k a s Hk)|].
    cbv zeta.
    split; [exists (VInt (clk (S (ticks s)))), (clk (S (S (ticks s))));
            split; [reflexivity|]; split; [discriminate|done]|].
    split; [apply stamp_sources|]. split; [intros key; apply stamp_other|].
    simpl. repeat split; try done.
Qed.

(** C3, as the code has it: the record written for an indicator keeps the
    [first_seen] of the record it replaces, or takes a clock reading of its
    own when there was none; its [last_seen] is always a clock reading of
    its own, and so is its [_updated], read after the cycle's start [T].
    Provided the clock does not run backwards, every indicator written
    during a cycle has after the cycle an [_updated] no earlier than [T]: a
    cycle whose lines all parse runs to its end, and an indicator written
    by a cycle that fails later on is stamped no earlier than its start all
    the same. *)
Theorem C3_seen_timestamps (clk : nat → Z) (cfg : config) (hooks : Hooks) :
  (∀ k a s,
     seen (table s) →
     ∃ a' s',
       reconcile clk cfg k a s = (Ok tt, s')
       ∧ table s' !! k = Some a'
       ∧ a' !! "_updated" = Some (VInt (clk (ticks s)))
       ∧ (∀ old, table s !! k = Some old →
            a' !! "first_seen" = old !! "first_seen"
            ∧ a' !! "last_seen" = Some (VInt (clk (S (ticks s))))
            ∧ ticks s' = S (S (ticks s)))
       ∧ (table s !! k = None →
            a' !! "first_seen" = Some (VInt (clk (S (ticks s))))
            ∧ a' !! "last_seen" = Some (VInt (clk (S (S (ticks s)))))
            ∧ ticks s' = S (S (S (ticks s)))))
  ∧ (monotone clk →
     ∀ lines s,
       seen (table s) →
       (∀ line, line ∈ lines → ∃ p, parse cfg line = Ok p) →
       ∃ s',
         _polling_loop clk cfg (Streamed lines None) s = (Ok tt, s')
         ∧ ∀ line k a, line ∈ lines → parse cfg line = Ok (Some (k, a)) →
             ∃ r u, table s' !! k = Some r
                    ∧ r !! "_updated" = Some (VInt u)
                    ∧ clk (ticks s) ≤ u)
  ∧ (monotone clk →
     ∀ pre line post broken k a s,
       seen (table s) →
       (∀ l, l ∈ pre → ∃ p, parse cfg l = Ok p) →
       parse cfg line = Ok (Some (k, a)) →
       fresh (clk (ticks s))
         (table (_polling_loop clk cfg
                   (Streamed (pre ++ line :: post) broken) s).2) k).
Proof.
  split; [|split];
    [| |intros Hmono; intros; eapply polling_loop_reached_fresh; eassumption].
  - intros k a s Hseen. destruct (table s !! k) as [old|] eqn:Hk.
    + destruct (Hseen k old Hk) as [fs Hfs].
      eexists (stamp cfg a (clk (ticks s)) fs (clk (S (ticks s)))), _.
      split; [apply (reconcile_old clk cfg k a s old fs Hk Hfs)|].
      cbv zeta. destruct (send_update _ _ _); simpl;
        rewrite lookup_insert_eq, stamp_updated, stamp_first_seen, stamp_last_seen;
        (split; [done|]); (split; [done|]); (split; [|done]);
        intros old' [= <-]; rewrite Hfs; done.
    + eexists (stamp cfg a (clk (ticks s)) (VInt (clk (S (ticks s))))
                 (clk (S (S (ticks s))))), _.
      split; [apply (reconcile_new clk cfg k a s Hk)|].
      cbv zeta. simpl.
      rewrite lookup_insert_eq, stamp_updated, stamp_first_seen, stamp_last_seen.
      repeat split; done.
  - intros Hmono lines s Hseen Hparse.
    destruct (lines_ok clk cfg lines Hparse (set_ticks (S (ticks s)) s) Hseen)
      as [mid Hmid].
    rewrite (polling_loop_streamed clk cfg lines s mid Hmid).
    eexists. split; [apply withdraw_stale_eq|].
    intros line k a Hin Hp.
    destruct (lines_fresh clk cfg (clk (ticks s)) Hmono lines
                (set_ticks (S (ticks s)) s) mid Hseen
                ltac:(apply Hmono; simpl; lia) Hmid) as (_ & _ & _ & Hnew).
    pose proof (fresh_withdraw_stale cfg _ mid k (Hnew line k a Hin Hp)) as Hf.
    rewrite withdraw_stale_eq in Hf. exact Hf.
Qed.

(** *** The store as the polling loop keeps it *)

Section StoreInvariant.
Variable clk : nat → Z.
Variable cfg : config.
Context {hooks : Hooks}.
Hypothesis clk_after_epoch : after_epoch clk.

Lemma well_kept_empty : well_kept ∅.
Proof. split; intros k r; rewrite lookup_empty; discriminate. Qed.

Lemma well_kept_insert t k a u :
  well_kept t → is_Some (a !! "first_seen") →
  a !! "_updated" = Some (VInt u) → 0 ≤ u →
  well_kept (<[k := a]> t).
Proof.
  intros [Hseen Hepoch] Hfs Hu Hnn. split.
  - apply seen_insert; done.
  - intros k' r z. rewrite lookup_insert. case_decide.
    + intros [= <-]. unfold Table.index_value. rewrite Hu. congruence.
    + apply Hepoch.
Qed.

Lemma well_kept_foldl_delete (q : list (string * attrs)) t :
  well_kept t → well_kept (foldl (fun t iv => Table.delete iv.1 t) t q).
Proof.
  intros [Hseen Hepoch]. split.
  - intros k r. rewrite lookup_foldl_delete. case_decide; [discriminate|].
    apply Hseen.
  - intros k r u. rewrite lookup_foldl_delete. case_decide; [discriminate|].
    apply Hepoch.
Qed.

Lemma reconcile_well_kept k a s :
  well_kept (table s) → well_kept (table (reconcile clk cfg k a s).2).
Proof.
  intros Hwk. destruct (reconcile_ok clk cfg k a s (proj1 Hwk))
    as (a' & s' & Hr & Ht & Hu & Hfs & _).
  rewrite Hr. simpl. rewrite Ht. eapply well_kept_insert; eauto.
Qed.

Lemma handle_line_well_kept line s :
  well_kept (table s) → well_kept (table (handle_line clk cfg line s).2).
Proof.
  intros Hwk. destruct (parse cfg line) as [[[k a]|]|e] eqn:Hp.
  - rewrite (handle_line_indicator clk cfg line k a s Hp).
    apply reconcile_well_kept, Hwk.
  - rewrite (handle_line_skip clk cfg line s Hp). exact Hwk.
  - rewrite (handle_line_raise clk cfg line e s Hp). exact Hwk.
Qed.

Lemma for_each_invariant {A} (P : node → Prop) (l : list A) body :
  (∀ x s, P s → P (body x s).2) →
  ∀ s, P s → P (for_each l body s).2.
Proof.
  intros Hbody. induction l as [|x l IH]; intros s Hs; simpl; [exact Hs|].
  unfold bind. specialize (Hbody x s Hs).
  destruct (body x s) as [[u|e] s1]; simpl in *; auto.
Qed.

Lemma polling_loop_well_kept r s :
  well_kept (table s) → well_kept (table (_polling_loop clk cfg r s).2).
Proof.
  intros Hwk. unfold _polling_loop, bind at 1, utc_millisec.
  destruct r as [e|lines broken]; [exact Hwk|].
  unfold bind at 1.
  pose proof (for_each_invariant (fun s => well_kept (table s)) lines
                (handle_line clk cfg) handle_line_well_kept
                (set_ticks (S (ticks s)) s) Hwk) as Hlines.
  destruct (for_each lines (handle_line clk cfg) _) as [[u|e] mid];
    simpl in Hlines; [|exact Hlines].
  unfold bind at 1. destruct broken as [e|]; [exact Hlines|].
  unfold ret at 1. rewrite withdraw_stale_eq. simpl.
  apply well_kept_foldl_delete, Hlines.
Qed.

(** Every method and every step of the task leaves the store well kept. *)
Lemma exec_well_kept s o :
  well_kept (table s) → well_kept (table (exec clk cfg s o)).
Proof.
  intros Hwk. destruct o; simpl.
  - unfold start. destruct (glet s); exact Hwk.
  - destruct (glet s) as [g|] eqn:Hg.
    + rewrite (stop_eq s g Hg). exact Hwk.
    + unfold stop. rewrite Hg. exact Hwk.
  - rewrite (keeps_get table). exact Hwk.
  - rewrite (keeps_get_all table) by done. exact Hwk.
  - rewrite (keeps_get_range table) by done. exact Hwk.
  - exact Hwk.
  - unfold task. destruct (glet s) as [g|]; [|exact Hwk].
    assert (well_kept (table (_run clk cfg stim (at_pc g) s).2)) as Hrun.
    { destruct (at_pc g); simpl.
      - rewrite (keeps_run_entry table) by done. exact Hwk.
      - rewrite iteration_eq.
        pose proof (polling_loop_well_kept (response stim)
                      (set_ticks (S (ticks s)) s) Hwk) as Hp.
        destruct (_polling_loop clk cfg (response stim) _) as [[u|e] s'];
          simpl in Hp.
        + rewrite (keeps_schedule table) by done. exact Hp.
        + destruct (tryn + 1 <? num_retries cfg);
            destruct e; simpl; try exact Hp;
            rewrite (keeps_schedule table) by done; exact Hp.
      - rewrite (keeps_overrun table) by done. exact Hwk.
      - exact Hwk. }
    destruct (_run clk cfg stim (at_pc g) s) as [[p|e] s']; exact Hrun.
Qed.

(** A node built on an empty store keeps its store well in every state it
    reaches. *)
Lemma reachable_well_kept reinit ops :
  well_kept (table (execs clk cfg (__init__ ∅ reinit) ops)).
Proof.
  induction ops as [|o ops IH] using rev_ind.
  - apply well_kept_empty.
  - rewrite execs_snoc. apply exec_well_kept, IH.
Qed.
End StoreInvariant.

Lemma map_query_scan {B} (f : string → B) iname a b t :
  map (fun iv : string * attrs => f iv.1) (Table.query iname a b t)
  = map (fun e : Z * (string * attrs) => f e.2.1) (Table.scan iname a b t).
Proof.
  unfold Table.query. induction (Table.scan iname a b t) as [|e l IH];
    simpl; [reflexivity|]. rewrite <- IH. reflexivity.
Qed.

Lemma elem_of_query_keys iname a b t k :
  k ∈ (Table.query iname a b t).*1
  ↔ ∃ r z, t !! k = Some r ∧ Table.index_value iname r = Some z
           ∧ Table.in_range a b z = true.
Proof.
  rewrite list_elem_of_fmap. split.
  - intros ([k' r] & -> & Hin). apply elem_of_query in Hin as (? & z & ? & ?).
    eauto.
  - intros (r & z & Hk & Hz & Hr). exists (k, r). split; [done|].
    apply elem_of_query. eauto.
Qed.

Lemma withdrawn_keys_withdraws (q : list (string * attrs)) (v : attrs) :
  withdrawn_keys (map (fun iv : string * attrs => EmitWithdraw iv.1 v) q) = q.*1.
Proof.
  induction q as [|iv q IH]; [reflexivity|].
  simpl. f_equal. exact IH.
Qed.


(** The stale scan of a cycle is the loop run over the store's answer. *)
Lemma withdraw_stale_each cfg T s :
  withdraw_stale cfg T s
  = withdraw_each cfg (Table.query "_updated" (Some 0) (Some (T - 1)) (table s)) s.
Proof. reflexivity. Qed.


(** *** Checking a concrete store *)

Lemma seen_check (t : gmap string attrs) :
  forallb (fun kv : string * attrs => bool_decide (is_Some (kv.2 !! "first_seen")))
    (map_to_list t) = true →
  seen t.
Proof.
  intros Hall k r Hk. rewrite forallb_forall in Hall.
  apply elem_of_map_to_list, list_elem_of_In in Hk.
  apply Hall in Hk. apply bool_decide_eq_true in Hk. exact Hk.
Defined.


Lemma after_first_cycle_seen : seen (table after_first_cycle).
Proof. apply seen_check. vm_compute. reflexivity. Defined.


Lemma after_first_cycle_b :
  table after_first_cycle !! "b" = Some (stamp feed ∅ 10 (VInt 20) 30).
Proof. vm_cast_no_check (eq_refl (Some (stamp feed ∅ 10 (VInt 20) 30))). Qed.

Lemma after_first_cycle_a :
  table after_first_cycle !! "a" = Some (stamp feed ∅ 40 (VInt 50) 60).
Proof. vm_cast_no_check (eq_refl (Some (stamp feed ∅ 40 (VInt 50) 60))). Qed.

Lemma index_value_stamp cfg a u fs l :
  Table.index_value "_updated" (stamp cfg a u fs l) = Some u.
Proof. unfold Table.index_value. rewrite stamp_updated. reflexivity. Qed.


(** C2 at a concrete store: [b] is known after the first cycle, so with the
    default predicate and [force_updates] off its record is written again
    and nothing is emitted. *)
Lemma C2_emission_decision_witness :
  seen (table after_first_cycle)
  ∧ ∃ a' s',
      reconcile (hooks := default_hooks) ticking feed "b" ∅ after_first_cycle
      = (Ok tt, s')
      ∧ table s' = <["b" := a']> (table after_first_cycle)
      ∧ trace s' = trace after_first_cycle.
Proof.
  split; [exact after_first_cycle_seen|].
  destruct (C2_emission_decision ticking feed default_hooks "b" ∅
              after_first_cycle after_first_cycle_seen)
    as (a' & s' & Hrun & _ & _ & _ & Htable & _ & _ & Hdefault & _).
  exists a', s'. split; [exact Hrun|]. split; [exact Htable|].
  apply (Hdefault _ after_first_cycle_b); reflexivity.
Defined.

(** C3 at a concrete store: a second cycle that reads [b] again starts at
    70 and leaves [b] stamped 70 or later. *)
Lemma C3_seen_timestamps_witness :
  monotone ticking
  ∧ ∃ s' r u,
      _polling_loop (hooks := default_hooks) ticking feed
        (Streamed ["b"] None) after_first_cycle = (Ok tt, s')
      ∧ table s' !! "b" = Some r
      ∧ r !! "_updated" = Some (VInt u)
      ∧ 70 ≤ u.
Proof.
  split; [exact ticking_monotone|].
  destruct (C3_seen_timestamps ticking feed default_hooks)
    as (_ & Hcycle & _).
  destruct (Hcycle ticking_monotone ["b"] after_first_cycle after_first_cycle_seen)
    as (s' & Hrun & Hfresh).
  { intros line Hin. apply list_elem_of_singleton in Hin as ->.
    eexists. reflexivity. }
  destruct (Hfresh "b" "b" ∅) as (r & u & Hr & Hu & Hle).
  { apply list_elem_of_singleton. reflexivity. }
  { reflexivity. }
  exists s', r, u. repeat split; assumption.
Defined.

(** C3, as stated, fails when the wall clock is set back during a cycle:
    the cycle's start [T] and a record's [_updated] are separate readings
    of the clock (lines 50 and 80).  On a fresh node a cycle that starts at
    5000 and reads the line [a] after the clock was set back by one
    millisecond stamps the record 4999, and the record stays in the store
    stamped before [T]; set back by a second, the record is stamped 4000,
    and the stale scan of the same cycle finds it below [T - 1]: the
    indicator is updated and withdrawn within the one cycle. *)
Lemma C3_clock_set_back :
  set_back 1 0 = 5000
  ∧ (table (for_each ["a"] (handle_line (hooks := default_hooks) (set_back 1) feed)
              (set_ticks 1 (__init__ ∅ true))).2 !! "a")
    = Some (stamp feed ∅ 4999 (VInt 5000) 5001)
  ∧ _polling_loop (hooks := default_hooks) (set_back 1) feed
      (Streamed ["a"] None) (__init__ ∅ true)
    = (Ok tt,
       set_trace [EmitUpdate "a" (stamp feed ∅ 4999 (VInt 5000) 5001)]
         (set_table {["a" := stamp feed ∅ 4999 (VInt 5000) 5001]}
            (set_ticks 4 (__init__ ∅ true))))
  ∧ stamp feed ∅ 4999 (VInt 5000) 5001 !! "_updated" = Some (VInt 4999)
  ∧ (4999 <? set_back 1 0) = true
  ∧ set_back 1000 0 = 5000
  ∧ (table (for_each ["a"] (handle_line (hooks := default_hooks) (set_back 1000) feed)
              (set_ticks 1 (__init__ ∅ true))).2 !! "a")
    = Some (stamp feed ∅ 4000 (VInt 4001) 4002)
  ∧ _polling_loop (hooks := default_hooks) (set_back 1000) feed
      (Streamed ["a"] None) (__init__ ∅ true)
    = (Ok tt,
       set_trace [EmitUpdate "a" (stamp feed ∅ 4000 (VInt 4001) 4002);
                  EmitWithdraw "a" {["sources" := VList ["feed"]]}]
         (set_table ∅ (set_ticks 4 (__init__ ∅ true)))).
Proof.
  split; [reflexivity|].
  split; [vm_compute; reflexivity|].
  split; [vm_compute; reflexivity|].
  split; [vm_compute; reflexivity|].
  split; [reflexivity|].
  split; [reflexivity|].
  split; vm_compute; reflexivity.
Qed.

(** C6 at a concrete overrun: one second between cycles, a cycle started at
    0 that ended at 2500: two warnings, and 500 milliseconds of sleep. *)
Lemma C6_overrun_loop_ends_witness :
  0 < interval hasty_feed
  ∧ ∃ (n : nat) (remaining : Z),
      (∀ fuel, (n ≤ fuel)%nat →
         schedule ticking hasty_feed fuel 0 (set_ticks 250 (__init__ ∅ true))
         = (Ok (Loop 0),
            set_trace (replicate n LogWarning ++ [SleepMillis remaining])
              (set_ticks 251 (__init__ ∅ true))))
      ∧ n = 2%nat ∧ remaining = 500.
Proof.
  assert (Hpos : 0 < interval hasty_feed) by reflexivity.
  split; [exact Hpos|].
  destruct (C6_overrun_loop_ends ticking hasty_feed Hpos 0
              (set_ticks 250 (__init__ ∅ true)))
    as (n & remaining & Hrun & Heq & Hnn & _ & _ & Hlt).
  exists n, remaining. split; [exact Hrun|].
  change (interval hasty_feed * 1000) with 1000 in *.
  change (ticking (ticks (set_ticks 250 (__init__ ∅ true)))) with 2500 in *.
  lia.
Defined.

(** C6, as stated, fails on the upper bound: a cycle that fails at once
    (there is no URL) and is not retried is over within the millisecond it
    started in, and the loop sleeps the whole interval, not less. *)
Lemma C6_sleeps_a_whole_interval :
  iteration (hooks := default_hooks) frozen hasty_feed
    {| response := Refused RequestException; seed := 0; fuel := O |} 0
    (__init__ ∅ true)
  = (Ok (Loop 0),
     set_trace [LogException; SleepMillis 1000] (set_ticks 3 (__init__ ∅ true)))
  ∧ ¬ (1000 < interval hasty_feed * 1000).
Proof. split; [reflexivity | vm_compute; discriminate]. Qed.

(** The retry policy on the defaults ([num_retries = 2]): a first failure
    is retried after a jitter, a second one waits for the next cycle. *)
Example first_failure_is_retried :
  iteration (hooks := default_hooks) ticking feed
    {| response := Refused RequestException; seed := 7; fuel := O |} 0
    (__init__ ∅ true)
  = (Ok (Loop 1),
     set_trace [LogException; SleepSeconds 3] (set_ticks 2 (__init__ ∅ true))).
Proof. reflexivity. Qed.

Example second_failure_waits :
  iteration (hooks := default_hooks) ticking feed
    {| response := Refused RequestException; seed := 7; fuel := O |} 1
    (__init__ ∅ true)
  = (Ok (Loop 0),
     set_trace [LogException; SleepMillis 86399980]
       (set_ticks 3 (__init__ ∅ true))).
Proof. reflexivity. Qed.

(** The scenario of two cycles: two indicators, then one of them gone. *)
Example two_cycles :
  let s1 := (_polling_loop (hooks := default_hooks) ticking feed
               (Streamed ["1.2.3.4 note"; "5.6.7.8 note"] None)
               (__init__ ∅ true)).2 in
  let s2 := (_polling_loop (hooks := default_hooks) ticking feed
               (Streamed ["1.2.3.4 note"] None) s1).2 in
  trace s1 = [EmitUpdate "1.2.3.4" (stamp feed ∅ 10 (VInt 20) 30);
              EmitUpdate "5.6.7.8" (stamp feed ∅ 40 (VInt 50) 60)]
  ∧ drop 2 (trace s2) = [EmitWithdraw "5.6.7.8" {["sources" := VList ["feed"]]}]
  ∧ table s2 !! "5.6.7.8" = None
  ∧ table s2 !! "1.2.3.4" = Some (stamp feed ∅ 80 (VInt 20) 90).
Proof.
  cbv zeta. split; [|split; [|split]].
  - vm_cast_no_check
      (eq_refl [EmitUpdate "1.2.3.4" (stamp feed ∅ 10 (VInt 20) 30);
                EmitUpdate "5.6.7.8" (stamp feed ∅ 40 (VInt 50) 60)]).
  - vm_cast_no_check
      (eq_refl [EmitWithdraw "5.6.7.8" ({["sources" := VList ["feed"]]} : attrs)]).
  - vm_cast_no_check (eq_refl (@None attrs)).
  - vm_cast_no_check (eq_refl (Some (stamp feed ∅ 80 (VInt 20) 90))).
Qed.

(** Without a positive interval an overrun never ends. *)
Lemma overrun_never_ends cfg fuel deltat s :
  interval cfg ≤ 0 → deltat < 0 →
  ∃ d s', overrun cfg fuel deltat s = (Ok (Spin d), s') ∧ d < 0.
Proof.
  intros Hint. revert deltat s. induction fuel as [|fuel IH]; intros deltat s Hd.
  - simpl. assert ((deltat <? 0) = true) as -> by lia. eauto.
  - rewrite overrun_neg by done. apply IH. lia.
Qed.

(* ===================================================================== *)
(** ** Further properties                                                 *)
(* ===================================================================== *)

Local Open Scope list_scope.

(** *** The selection of a line's token, lines 61-73 *)

Lemma prefix_empty s : String.prefix "" s = true.
Proof. destruct s; reflexivity. Qed.

Lemma cons_head_length c toks :
  List.length (cons_head c toks) = Nat.max 1 (List.length toks).
Proof. destruct toks; reflexivity. Qed.

(** A split on a separator always yields a token. *)
Lemma split_at_length sep skip s : (1 ≤ List.length (split_at sep skip s))%nat.
Proof.
  revert skip. induction s as [|c s IH]; intros skip; simpl; [lia|].
  destruct skip as [|k]; [|apply IH].
  match goal with |- context [if ?b then _ else _] => destruct b end.
  - simpl. lia.
  - rewrite cons_head_length. lia.
Qed.

Lemma index_ok {A} (l : list A) i :
  - Z.of_nat (List.length l) ≤ i < Z.of_nat (List.length l) →
  ∃ x, index l i = Ok x.
Proof.
  intros Hi. unfold index.
  set (n := Z.of_nat (List.length l)) in *.
  set (j := if i <? 0 then n + i else i).
  assert (0 ≤ j < n) as Hj by (subst j; destruct (Z.ltb_spec i 0); lia).
  assert (((0 <=? j) && (j <? n)) = true) as -> by lia.
  destruct (nth_error l (Z.to_nat j)) as [x|] eqn:Hx; [eauto|].
  apply nth_error_None in Hx. lia.
Qed.

Lemma index_raises {A} (l : list A) i :
  ¬ (- Z.of_nat (List.length l) ≤ i < Z.of_nat (List.length l)) →
  index l i = Raise IndexError.
Proof.
  intros Hi. unfold index.
  set (n := Z.of_nat (List.length l)) in *.
  set (j := if i <? 0 then n + i else i).
  assert (¬ (0 ≤ j < n)) as Hj by (subst j; destruct (Z.ltb_spec i 0); lia).
  assert (((0 <=? j) && (j <? n)) = false) as -> by lia.
  reflexivity.
Qed.

(** X1: the selection of a line's token raises in two cases only, both on
    a line that is neither blank nor a comment: an empty [split_char]
    ([ValueError] of the split), and a negative [split_pos] that reaches
    before the first token ([IndexError]: the test on the number of tokens
    guards the positions from 0 on only).  *)
Theorem X1_select_raises (cfg : config) (line : string) (e : exn) :
  select cfg line = Raise e
  ↔ strip line ≠ "" ∧ commented cfg line = false
    ∧ ((split_char cfg = Some "" ∧ e = ValueError "empty separator")
       ∨ (∃ sep, split_char cfg = Some sep ∧ sep ≠ ""
                 ∧ split_pos cfg
                   < - Z.of_nat (List.length (split_at sep O (strip line)))
                 ∧ e = IndexError)).
Proof.
  unfold select, commented.
  destruct (String.eqb_spec (strip line) "") as [Hblank|Hdata].
  { split; [discriminate|]. intros (H & _). done. }
  destruct (match cchar cfg with Some c => startswith (strip line) c | None => false end)
    eqn:Hc.
  { split; [discriminate|]. intros (_ & H & _). discriminate. }
  destruct (split_char cfg) as [sep|] eqn:Hsep.
  2:{ split; [discriminate|]. intros (_ & _ & [[? _]|(? & ? & _)]); discriminate. }
  destruct sep as [|c sep]; simpl.
  { split.
    - intros [= <-]. repeat split; auto.
    - intros (_ & _ & [[_ ->]|(sep & [= <-] & Hne & _)]); done. }
  set (toks := split_at (String c sep) O (strip line)).
  pose proof (split_at_length (String c sep) O (strip line)) as Hlen.
  fold toks in Hlen.
  destruct (Z.ltb_spec (Z.of_nat (List.length toks)) (split_pos cfg + 1)) as [Hshort|Hlong].
  { split; [discriminate|].
    intros (_ & _ & [[? _]|(sep' & [= <-] & _ & Hneg & _)]); [discriminate|].
    fold toks in Hneg. lia. }
  destruct (Z_lt_le_dec (split_pos cfg) (- Z.of_nat (List.length toks))) as [Hneg|Hok].
  - rewrite index_raises by lia. split.
    + intros [= <-]. repeat split; auto. right. exists (String c sep).
      repeat split; auto; discriminate.
    + intros (_ & _ & [[? _]|(_ & _ & _ & _ & ->)]); [discriminate|done].
  - destruct (index_ok toks (split_pos cfg)) as [tok ->]; [lia|].
    split; [discriminate|].
    intros (_ & _ & [[? _]|(sep' & [= <-] & _ & Hneg & _)]); [discriminate|].
    fold toks in Hneg. lia.
Qed.

Example negative_split_pos_raises :
  select (configure "csv" {|
            raw_source_name := None; raw_url := None; raw_cchar := None;
            raw_split_char := Some ","; raw_split_pos := Some (-2);
            raw_attributes := None; raw_interval := None;
            raw_force_updates := None; raw_polling_timeout := None;
            raw_num_retries := None |}) "1.2.3.4"
  = Raise IndexError.
Proof. reflexivity. Qed.

(** *** The default transform on a trimmed line, lines 43-45 and 61-77 *)

Lemma split_ws_cons c s :
  split_ws (String c s)
  = if is_space c then split_ws s
    else match s with
         | EmptyString => [String c EmptyString]
         | String c' _ =>
             if is_space c' then String c EmptyString :: split_ws s
             else cons_head c (split_ws s)
         end.
Proof. reflexivity. Qed.

Lemma prefix_cons c t s : String.prefix (String c t) (String c s) = String.prefix t s.
Proof. simpl. destruct (ascii_dec c c); [reflexivity|contradiction]. Qed.

Lemma has_space_cons c s : has_space (String c s) = is_space c || has_space s.
Proof. reflexivity. Qed.

(** The first token of a string that starts with a character other than
    whitespace: not empty, free of whitespace, a prefix of the string. *)
Lemma split_ws_head s :
  ∀ c, is_space c = false →
       ∃ t ts, split_ws (String c s) = t :: ts
               ∧ t ≠ "" ∧ has_space t = false
               ∧ String.prefix t (String c s) = true.
Proof.
  induction s as [|c' s IH]; intros c Hc; rewrite split_ws_cons, Hc.
  - exists (String c ""), []. repeat split; [discriminate| |apply prefix_cons].
    rewrite has_space_cons, Hc. reflexivity.
  - destruct (is_space c') eqn:Hc'.
    + exists (String c ""), (split_ws (String c' s)).
      repeat split; [discriminate| |apply prefix_cons].
      rewrite has_space_cons, Hc. reflexivity.
    + destruct (IH c' Hc') as (t & ts & -> & _ & Hsp & Hpre).
      exists (String c t), ts. repeat split; [discriminate| |].
      * rewrite has_space_cons, Hc, Hsp. reflexivity.
      * rewrite prefix_cons. exact Hpre.
Qed.

Lemma lstrip_head s :
  lstrip s = "" ∨ ∃ c r, lstrip s = String c r ∧ is_space c = false.
Proof.
  induction s as [|c s IH]; simpl; [auto|].
  destruct (is_space c) eqn:Hc; [exact IH|]. right. eauto.
Qed.

Lemma rstrip_head c r :
  is_space c = false → ∃ r', rstrip (String c r) = String c r'.
Proof.
  intros Hc. simpl. destruct (rstrip r); [rewrite Hc|]; eauto.
Qed.

Lemma strip_head s :
  strip s = "" ∨ ∃ c r, strip s = String c r ∧ is_space c = false.
Proof.
  unfold strip. destruct (lstrip_head s) as [->|(c & r & -> & Hc)]; [auto|].
  right. destruct (rstrip_head c r Hc) as [r' ->]. eauto.
Qed.

(** X2: without [split_char] the default transform raises on no line: a
    line that is blank or a comment is skipped, and any other line yields
    the configured attributes under a key that is not empty, holds no
    whitespace and starts the trimmed line. *)
Theorem X2_default_key_is_clean (cfg : config) (line : string) :
  split_char cfg = None →
  (strip line = "" ∨ commented cfg line = true →
   parse (hooks := default_hooks) cfg line = Ok None)
  ∧ (strip line ≠ "" → commented cfg line = false →
     ∃ k, parse (hooks := default_hooks) cfg line = Ok (Some (k, attributes cfg))
          ∧ k ≠ "" ∧ has_space k = false
          ∧ String.prefix k (strip line) = true).
Proof.
  intros Hsplit. unfold parse, select, commented. rewrite Hsplit. split.
  - intros [Hblank|Hc].
    + rewrite Hblank. reflexivity.
    + destruct (String.eqb (strip line) ""); [reflexivity|].
      rewrite Hc. reflexivity.
  - intros Hdata Hc.
    destruct (String.eqb_spec (strip line) "") as [?|_]; [done|].
    rewrite Hc.
    destruct (strip_head line) as [?|(c & r & Hs & Hsp)]; [done|].
    destruct (split_ws_head r c Hsp) as (t & ts & Hws & Hne & Hnsp & Hpre).
    exists t. rewrite Hs. cbn [process_line default_hooks].
    unfold _process_line. rewrite Hws. auto.
Qed.

Lemma X2_default_key_is_clean_witness :
  split_char feed = None
  ∧ ∃ k, parse (hooks := default_hooks) feed "  1.2.3.4 note " = Ok (Some (k, ∅))
         ∧ k ≠ "" ∧ has_space k = false.
Proof.
  split; [reflexivity|].
  destruct (X2_default_key_is_clean feed "  1.2.3.4 note " eq_refl) as [_ H].
  destruct H as (k & Hk & Hne & Hsp & _); [discriminate|reflexivity|].
  exists k. auto.
Defined.

(** *** An empty comment prefix, lines 65-67 *)

Lemma for_each_skip clk cfg {hooks : Hooks} lines s :
  (∀ line, line ∈ lines → parse cfg line = Ok None) →
  for_each lines (handle_line clk cfg) s = (Ok tt, s).
Proof.
  induction lines as [|line lines IH]; intros Hskip; [reflexivity|].
  simpl. unfold bind. rewrite (handle_line_skip clk cfg line s).
  - apply IH. intros l Hl. apply Hskip. right. exact Hl.
  - apply Hskip. left.
Qed.

(** X3: every string starts with the empty string, so with the comment
    prefix set to the empty string every line is skipped: whatever the feed
    holds, the cycle does what it does on an empty feed. *)
Theorem X3_empty_comment_prefix (clk : nat → Z) (cfg : config) (hooks : Hooks) :
  cchar cfg = Some "" →
  (∀ line, parse cfg line = Ok None)
  ∧ ∀ lines broken s,
      _polling_loop clk cfg (Streamed lines broken) s
      = _polling_loop clk cfg (Streamed [] broken) s.
Proof.
  intros Hc.
  assert (Hskip : ∀ line, parse cfg line = Ok None).
  { intros line. unfold parse, select. rewrite Hc.
    destruct (String.eqb (strip line) ""); [reflexivity|].
    unfold startswith. rewrite prefix_empty. reflexivity. }
  split; [exact Hskip|]. intros lines broken s.
  unfold _polling_loop, bind at 1, utc_millisec. simpl.
  unfold bind at 1 3.
  rewrite (for_each_skip clk cfg lines) by (intros; apply Hskip).
  reflexivity.
Qed.

Lemma X3_empty_comment_prefix_witness :
  cchar all_comments = Some ""
  ∧ parse (hooks := default_hooks) all_comments "1.2.3.4" = Ok None.
Proof.
  split; [reflexivity|].
  apply (X3_empty_comment_prefix ticking all_comments default_hooks eq_refl).
Defined.

(** *** What one reconciliation comes to, lines 79-99 *)

Lemma set_trace_nil s : set_trace (trace s ++ []) s = s.
Proof. rewrite app_nil_r. apply set_trace_same. Qed.

(** Either the record is written, stamped, and its update emitted if
    [send_update] says so, or the old record has no [first_seen] and the
    store is left as it was. *)
Lemma reconcile_cases (clk : nat → Z) (cfg : config) {hooks : Hooks} k a s :
  (∃ u fs l n,
      let a' := stamp cfg a u fs l in
      reconcile clk cfg k a s
      = (Ok tt,
         set_trace (trace s ++ if send_update cfg (table s !! k) a'
                               then [EmitUpdate k a'] else [])
           (set_table (<[k := a']> (table s)) (set_ticks n s))))
  ∨ (is_Some (table s !! k)
     ∧ reconcile clk cfg k a s
       = (Raise (KeyError "first_seen"), set_ticks (S (ticks s)) s)).
Proof.
  destruct (table s !! k) as [old|] eqn:Hk.
  - destruct (old !! "first_seen") as [fs|] eqn:Hfs.
    + left. exists (clk (ticks s)), fs, (clk (S (ticks s))), (S (S (ticks s))).
      cbv zeta. rewrite (reconcile_old clk cfg k a s old fs Hk Hfs). cbv zeta.
      destruct (send_update cfg (Some old) _); [reflexivity|].
      rewrite <- (set_trace_nil (set_table _ _)) at 1. reflexivity.
    + right. split; [eauto|]. apply reconcile_no_first_seen with old; done.
  - left. exists (clk (ticks s)), (VInt (clk (S (ticks s)))),
      (clk (S (S (ticks s)))), (S (S (S (ticks s)))).
    cbv zeta. rewrite (reconcile_new clk cfg k a s Hk). reflexivity.
Qed.

(** *** The effects of each method *)

Lemma forallb_app_true {A} (P : A → bool) l1 l2 :
  forallb P l1 = true → forallb P l2 = true → forallb P (l1 ++ l2) = true.
Proof. intros H1 H2. rewrite forallb_app, H1, H2. reflexivity. Qed.

Section Emits.
Variable P : effect → bool.
Hypothesis P_update : ∀ k v, P (EmitUpdate k v) = true.
Hypothesis P_withdraw : ∀ k v, P (EmitWithdraw k v) = true.
Hypothesis P_rpc : ∀ src k v, P (RpcUpdate src k v) = true.
Hypothesis P_sleep_seconds : ∀ z, P (SleepSeconds z) = true.
Hypothesis P_sleep_millis : ∀ z, P (SleepMillis z) = true.
Hypothesis P_log_exception : P LogException = true.
Hypothesis P_log_warning : P LogWarning = true.

Lemma emits_ret {A} (a : A) : emits P (ret a).
Proof. intros s. exists []. simpl. rewrite app_nil_r. done. Qed.

Lemma emits_raise {A} e : emits P (@raise A e).
Proof. intros s. exists []. simpl. rewrite app_nil_r. done. Qed.

Lemma emits_lift {A} (r : result A) : emits P (lift r).
Proof. intros s. exists []. simpl. rewrite app_nil_r. done. Qed.

Lemma emits_utc_millisec clk : emits P (utc_millisec clk).
Proof. intros s. exists []. simpl. rewrite app_nil_r. done. Qed.

Lemma emits_table_get k : emits P (table_get k).
Proof. intros s. exists []. simpl. rewrite app_nil_r. done. Qed.

Lemma emits_table_put k v : emits P (table_put k v).
Proof. intros s. exists []. simpl. rewrite app_nil_r. done. Qed.

Lemma emits_table_delete k : emits P (table_delete k).
Proof. intros s. exists []. simpl. rewrite app_nil_r. done. Qed.

Lemma emits_table_query a b : emits P (table_query a b).
Proof. intros s. exists []. simpl. rewrite app_nil_r. done. Qed.

Lemma emits_perform e : P e = true → emits P (perform e).
Proof. intros He s. exists [e]. simpl. rewrite He. done. Qed.

Lemma emits_bind {A C} (m : M A) (k : A → M C) :
  emits P m → (∀ a, emits P (k a)) → emits P (bind m k).
Proof.
  intros Hm Hk s. destruct (Hm s) as (evs & Ht & HP). unfold bind.
  destruct (m s) as [[a|e] s1]; simpl in *; [|eauto].
  destruct (Hk a s1) as (evs' & Ht' & HP').
  exists (evs ++ evs'). rewrite Ht', Ht, app_assoc.
  split; [reflexivity|]. apply forallb_app_true; done.
Qed.

Lemma emits_for_each {A} (l : list A) body :
  (∀ x, emits P (body x)) → emits P (for_each l body).
Proof.
  intros Hb. induction l as [|x l IH]; simpl.
  - apply emits_ret.
  - apply emits_bind; auto.
Qed.

Create HintDb emits discriminated.
Hint Resolve emits_ret emits_raise emits_lift emits_utc_millisec
  emits_table_get emits_table_put emits_table_delete emits_table_query : emits.

Ltac emits_step :=
  first [ solve [auto with emits]
        | apply emits_perform; solve [auto]
        | apply emits_bind; [|intros ?]
        | apply emits_for_each; intros ?
        | match goal with |- emits _ (match ?x with _ => _ end) => destruct x end
        | match goal with |- emits _ (if ?x then _ else _) => destruct x end ].

Section WithMethods.
Variable clk : nat → Z.
Variable cfg : config.
Context {hooks : Hooks}.

Lemma emits_reconcile k a : emits P (reconcile clk cfg k a).
Proof. unfold reconcile. repeat emits_step. Qed.

Lemma emits_handle_line line : emits P (handle_line clk cfg line).
Proof.
  unfold handle_line. apply emits_bind; [apply emits_lift|].
  intros [[k a]|]; [apply emits_reconcile|apply emits_ret].
Qed.

Lemma emits_lines lines : emits P (for_each lines (handle_line clk cfg)).
Proof. apply emits_for_each. intros line. apply emits_handle_line. Qed.

Lemma emits_withdraw_stale now : emits P (withdraw_stale cfg now).
Proof. unfold withdraw_stale. repeat emits_step. Qed.

Lemma emits_polling_loop r : emits P (_polling_loop clk cfg r).
Proof.
  unfold _polling_loop. apply emits_bind; [apply emits_utc_millisec|].
  intros now. destruct r as [e|lines broken]; [apply emits_raise|].
  apply emits_bind; [apply emits_lines|]. intros _.
  apply emits_bind; [destruct broken; [apply emits_raise|apply emits_ret]|].
  intros _. apply emits_withdraw_stale.
Qed.

Lemma emits_overrun fuel deltat : emits P (overrun cfg fuel deltat).
Proof.
  revert deltat. induction fuel as [|fuel IH]; intros deltat; simpl.
  - destruct (deltat <? 0); repeat emits_step.
  - destruct (deltat <? 0); repeat emits_step.
Qed.

Lemma emits_schedule fuel lastrun : emits P (schedule clk cfg fuel lastrun).
Proof.
  unfold schedule. apply emits_bind; [apply emits_utc_millisec|].
  intros now. apply emits_overrun.
Qed.

Lemma emits_iteration stim tryn : emits P (iteration clk cfg stim tryn).
Proof.
  intros s. rewrite iteration_eq.
  destruct (emits_polling_loop (response stim) (set_ticks (S (ticks s)) s))
    as (evs & Ht & HP). simpl in Ht.
  destruct (_polling_loop clk cfg (response stim) _) as [[u|e] s']; simpl in Ht.
  - destruct (emits_schedule (fuel stim) (clk (ticks s)) s') as (evs' & Ht' & HP').
    exists (evs ++ evs'). rewrite Ht', Ht, app_assoc.
    split; [reflexivity|]. apply forallb_app_true; done.
  - assert (∃ evs', trace
        (if tryn + 1 <? num_retries cfg
         then (Ok (Loop (tryn + 1)),
               set_trace (trace s' ++ [LogException;
                                       SleepSeconds (randint 1 5 (seed stim))]) s')
         else schedule clk cfg (fuel stim) (clk (ticks s))
                (set_trace (trace s' ++ [LogException]) s')).2
        = (trace s' ++ evs')%list ∧ forallb P evs' = true) as (evs' & Ht' & HP').
    { destruct (tryn + 1 <? num_retries cfg).
      - eexists. split; [reflexivity|]. simpl.
        rewrite P_log_exception, P_sleep_seconds. reflexivity.
      - destruct (emits_schedule (fuel stim) (clk (ticks s))
                    (set_trace (trace s' ++ [LogException]) s'))
          as (evs' & Ht' & HP').
        exists (LogException :: evs'). rewrite Ht'. simpl.
        rewrite <- app_assoc, P_log_exception. done. }
    destruct e;
      try (exists (evs ++ evs'); rewrite Ht', Ht, app_assoc;
           split; [reflexivity|]; apply forallb_app_true; done).
    exists evs. done.
Qed.

Lemma emits_run_entry : emits P run_entry.
Proof.
  intros s. unfold run_entry.
  assert (H : emits P
    (do! (if negb (reinit_flag s)
          then let! q := table_query None None in
               for_each q (fun iv => perform (EmitUpdate iv.1 iv.2))
          else ret tt) in
     ret (Loop 0))) by repeat emits_step.
  apply H.
Qed.

Lemma emits_run stim p : emits P (_run clk cfg stim p).
Proof.
  destruct p; simpl.
  - apply emits_run_entry.
  - apply emits_iteration.
  - apply emits_overrun.
  - apply emits_ret.
Qed.

Lemma emits_send_indicators source a b : emits P (_send_indicators source a b).
Proof. unfold _send_indicators. repeat emits_step. Qed.

Lemma emits_get source indicator : emits P (get source indicator).
Proof. unfold get. repeat emits_step. Qed.

Lemma emits_get_all source : emits P (get_all source).
Proof.
  unfold get_all. apply emits_bind; [apply emits_send_indicators|].
  intros ?. apply emits_ret.
Qed.

Lemma emits_get_range source ix a b : emits P (get_range source ix a b).
Proof.
  unfold get_range. destruct (_ && _); [apply emits_raise|].
  apply emits_bind; [apply emits_send_indicators|].
  intros ?. apply emits_ret.
Qed.
End WithMethods.
End Emits.

(** *** The lines of a cycle and the records they do not name *)

Section Lines.
Variable clk : nat → Z.
Variable cfg : config.
Context {hooks : Hooks}.

Lemma produced_parse line k :
  produced cfg line = Some k ↔ ∃ a, parse cfg line = Ok (Some (k, a)).
Proof.
  unfold produced. split.
  - destruct (parse cfg line) as [[[k' a]|]|e]; intros [=]; subst; eauto.
  - intros [a ->]. reflexivity.
Qed.

(** A record is never removed by a line, and only the record the line
    names is written. *)
Lemma handle_line_table line s k :
  (is_Some (table s !! k) → is_Some (table (handle_line clk cfg line s).2 !! k))
  ∧ (produced cfg line ≠ Some k →
     table (handle_line clk cfg line s).2 !! k = table s !! k).
Proof.
  unfold produced. destruct (parse cfg line) as [[[k' a]|]|e] eqn:Hp.
  - rewrite (handle_line_indicator clk cfg line k' a s Hp).
    destruct (reconcile_cases clk cfg k' a s)
      as [(u & fs & l & n & ->)|(_ & ->)]; simpl; [|done].
    split.
    + intros Hk. rewrite lookup_insert. case_decide; eauto.
    + intros Hne. apply lookup_insert_ne. congruence.
  - rewrite (handle_line_skip clk cfg line s Hp). done.
  - rewrite (handle_line_raise clk cfg line e s Hp). done.
Qed.

Lemma lines_table lines s k :
  (is_Some (table s !! k) →
   is_Some (table (for_each lines (handle_line clk cfg) s).2 !! k))
  ∧ ((∀ line, line ∈ lines → produced cfg line ≠ Some k) →
     table (for_each lines (handle_line clk cfg) s).2 !! k = table s !! k).
Proof.
  revert s. induction lines as [|line lines IH]; intros s; simpl; [done|].
  destruct (handle_line_table line s k) as [Hkeep Hframe].
  unfold bind.
  destruct (handle_line clk cfg line s) as [[[]|e] s1]; simpl in *.
  - destruct (IH s1) as [Hkeep' Hframe']. split.
    + auto.
    + intros Hnone. rewrite Hframe', Hframe; [done|..].
      * apply Hnone. left.
      * intros l Hl. apply Hnone. right. exact Hl.
  - split; [exact Hkeep|]. intros Hnone. apply Hframe, Hnone. left.
Qed.

(** A cycle that raises stopped before the stale scan: it ends in the state
    some of its lines left. *)
Lemma polling_loop_raise r s e s' :
  _polling_loop clk cfg r s = (Raise e, s') →
  ∃ lines, s' = (for_each lines (handle_line clk cfg)
                   (set_ticks (S (ticks s)) s)).2.
Proof.
  unfold _polling_loop, bind at 1, utc_millisec.
  destruct r as [e0|lines broken].
  - intros [= _ <-]. exists []. reflexivity.
  - unfold bind at 1.
    destruct (for_each lines (handle_line clk cfg) _) as [[[]|e1] mid] eqn:Hmid.
    + unfold bind at 1. destruct broken as [e2|].
      * intros [= _ <-]. exists lines. rewrite Hmid. reflexivity.
      * unfold ret at 1. rewrite withdraw_stale_eq. discriminate.
    + intros [= _ <-]. exists lines. rewrite Hmid. reflexivity.
Qed.
End Lines.

(** X4: a cycle that fails, at the request, on a line or on a broken stream,
    has withdrawn nothing and removed no record: all it has emitted are
    updates, and every record of the store is still there. *)
Theorem X4_failed_cycle_withdraws_nothing
    (clk : nat → Z) (cfg : config) (hooks : Hooks) r s e s' :
  _polling_loop clk cfg r s = (Raise e, s') →
  (∀ k, is_Some (table s !! k) → is_Some (table s' !! k))
  ∧ ∃ evs, trace s' = trace s ++ evs ∧ forallb is_update evs = true.
Proof.
  intros Hfail. destruct (polling_loop_raise clk cfg r s e s' Hfail) as [lines ->].
  split.
  - intros k Hk. apply (lines_table clk cfg lines). exact Hk.
  - apply (emits_lines is_update ltac:(reflexivity) clk cfg lines
             (set_ticks (S (ticks s)) s)).
Qed.

Lemma X4_failed_cycle_withdraws_nothing_witness :
  ∃ s', _polling_loop (hooks := default_hooks) ticking feed
          (Streamed ["c"] (Some RequestException)) after_first_cycle
        = (Raise RequestException, s')
        ∧ is_Some (table s' !! "a") ∧ is_Some (table s' !! "b").
Proof.
  set (out := _polling_loop (hooks := default_hooks) ticking feed
                (Streamed ["c"] (Some RequestException)) after_first_cycle).
  assert (Hout : out = (Raise RequestException, out.2)).
  { assert (H1 : out.1 = Raise RequestException)
      by (vm_cast_no_check (eq_refl (@Raise unit RequestException))).
    rewrite (surjective_pairing out) at 1. rewrite H1. reflexivity. }
  exists out.2. split; [exact Hout|].
  destruct (X4_failed_cycle_withdraws_nothing ticking feed default_hooks
              (Streamed ["c"] (Some RequestException)) after_first_cycle
              RequestException out.2 Hout) as [Hkeep _].
  split; apply Hkeep.
  - rewrite after_first_cycle_a. eauto.
  - rewrite after_first_cycle_b. eauto.
Defined.

(** *** The updates and the withdraws of a whole cycle *)

Lemma updated_keys_app evs1 evs2 :
  updated_keys (evs1 ++ evs2) = updated_keys evs1 ++ updated_keys evs2.
Proof. apply omap_app. Qed.

Lemma withdrawn_keys_app evs1 evs2 :
  withdrawn_keys (evs1 ++ evs2) = withdrawn_keys evs1 ++ withdrawn_keys evs2.
Proof. apply omap_app. Qed.

Lemma withdrawn_keys_updates evs :
  forallb is_update evs = true → withdrawn_keys evs = [].
Proof.
  induction evs as [|e evs IH]; [reflexivity|]. simpl.
  intros [He Hevs]%andb_true_iff. destruct e; try discriminate.
  apply IH, Hevs.
Qed.

Lemma updated_keys_withdraws (q : list (string * attrs)) (v : attrs) :
  updated_keys (map (fun iv : string * attrs => EmitWithdraw iv.1 v) q) = [].
Proof. induction q as [|iv q IH]; [reflexivity|exact IH]. Qed.

Section Cycle.
Variable clk : nat → Z.
Variable cfg : config.
Context {hooks : Hooks}.

(** A cycle whose lines raise nothing: the effects of the lines, then the
    withdraws of the stale scan. *)
Lemma cycle_trace lines s mid ups :
  for_each lines (handle_line clk cfg) (set_ticks (S (ticks s)) s) = (Ok tt, mid) →
  trace mid = trace s ++ ups →
  let q := Table.query "_updated" (Some 0) (Some (clk (ticks s) - 1)) (table mid) in
  let wds := map (fun iv : string * attrs =>
                    EmitWithdraw iv.1 {["sources" := VList [source_name cfg]]}) q in
  ∃ s', _polling_loop clk cfg (Streamed lines None) s = (Ok tt, s')
        ∧ trace s' = trace s ++ (ups ++ wds)
        ∧ table s' = foldl (fun t iv => Table.delete iv.1 t) (table mid) q.
Proof.
  intros Hmid Hups q wds.
  rewrite (polling_loop_streamed clk cfg lines s mid Hmid), withdraw_stale_eq.
  eexists. split; [reflexivity|]. simpl. rewrite Hups, <- app_assoc. done.
Qed.

(** With the default predicate and [force_updates] off, the lines of a
    cycle emit one update for each indicator the store did not hold, at its
    first line, and no other. *)
Lemma lines_first_sightings :
  force_updates cfg = false →
  (∀ d1 d2, values_compare d1 d2 = true) →
  ∀ lines s,
    seen (table s) →
    (∀ line, line ∈ lines → ∃ p, parse cfg line = Ok p) →
    ∃ mid ups,
      for_each lines (handle_line clk cfg) s = (Ok tt, mid)
      ∧ trace mid = trace s ++ ups
      ∧ NoDup (updated_keys ups)
      ∧ ∀ k, k ∈ updated_keys ups
             ↔ table s !! k = None
               ∧ ∃ line, line ∈ lines ∧ produced cfg line = Some k.
Proof.
  intros Hforce Hcmp lines.
  induction lines as [|line lines IH]; intros s Hseen Hparse.
  - exists s, []. simpl. rewrite app_nil_r.
    split; [reflexivity|]. split; [reflexivity|]. split; [constructor|].
    intros k. split.
    + intros Hk. inversion Hk.
    + intros (_ & line & Hin & _). inversion Hin.
  - assert (Hrest : ∀ l, l ∈ lines → ∃ p, parse cfg l = Ok p)
      by (intros l Hl; apply Hparse; right; exact Hl).
    simpl. unfold bind.
    destruct (Hparse line ltac:(left)) as [[[k0 a]|] Hp].
    + rewrite (handle_line_indicator clk cfg line k0 a s Hp).
      assert (Hprod : produced cfg line = Some k0)
        by (unfold produced; rewrite Hp; reflexivity).
      destruct (table s !! k0) as [old|] eqn:Hk0.
      * destruct (Hseen k0 old Hk0) as [fs Hfs].
        rewrite (reconcile_old clk cfg k0 a s old fs Hk0 Hfs). cbv zeta.
        unfold send_update. rewrite Hforce, Hcmp. simpl.
        match goal with |- context [for_each lines _ ?s1] =>
          destruct (IH s1) as (mid & ups & Hrun & Htr & Hnd & Hkeys) end.
        { simpl. apply seen_insert; [done|]. rewrite stamp_first_seen. eauto. }
        { exact Hrest. }
        simpl in Htr, Hkeys.
        exists mid, ups. rewrite Hrun.
        split; [reflexivity|]. split; [exact Htr|]. split; [exact Hnd|].
        intros k. split.
        -- intros [Hnone (l & Hl & Hk)]%Hkeys.
           rewrite lookup_insert in Hnone. case_decide; [discriminate|].
           split; [exact Hnone|]. exists l. split; [right; exact Hl|exact Hk].
        -- intros (Hnone & l & Hl & Hk). apply Hkeys.
           assert (k ≠ k0) as Hne by (intros ->; congruence).
           rewrite lookup_insert_ne by congruence. split; [exact Hnone|].
           apply elem_of_cons in Hl as [->|Hl]; [congruence|eauto].
      * rewrite (reconcile_new clk cfg k0 a s Hk0). cbv zeta.
        match goal with |- context [for_each lines _ ?s1] =>
          destruct (IH s1) as (mid & ups & Hrun & Htr & Hnd & Hkeys) end.
        { simpl. apply seen_insert; [done|]. rewrite stamp_first_seen. eauto. }
        { exact Hrest. }
        simpl in Htr, Hkeys.
        match type of Htr with context [EmitUpdate k0 ?a'] =>
          exists mid, (EmitUpdate k0 a' :: ups) end.
        rewrite Hrun, Htr, <- app_assoc.
        assert (Hk0' : k0 ∉ updated_keys ups).
        { intros [Hnone _]%Hkeys. rewrite lookup_insert_eq in Hnone. discriminate. }
        split; [reflexivity|]. split; [reflexivity|].
        split; [constructor; done|].
        intros k. change (updated_keys (EmitUpdate k0 _ :: ups))
          with (k0 :: updated_keys ups). split.
        -- intros [->|Hin]%elem_of_cons.
           ++ split; [exact Hk0|]. exists line. split; [left|exact Hprod].
           ++ apply Hkeys in Hin as [Hnone (l & Hl & Hk)].
              rewrite lookup_insert in Hnone. case_decide; [discriminate|].
              split; [exact Hnone|]. exists l. split; [right; exact Hl|exact Hk].
        -- intros (Hnone & l & Hl & Hk).
           destruct (decide (k = k0)) as [->|Hne]; [left|]. right.
           apply Hkeys. rewrite lookup_insert_ne by congruence.
           split; [exact Hnone|].
           apply elem_of_cons in Hl as [->|Hl]; [congruence|eauto].
    + rewrite (handle_line_skip clk cfg line s Hp).
      assert (Hprod : produced cfg line = None)
        by (unfold produced; rewrite Hp; reflexivity).
      destruct (IH s Hseen Hrest) as (mid & ups & Hrun & Htr & Hnd & Hkeys).
      exists mid, ups. rewrite Hrun.
      split; [reflexivity|]. split; [exact Htr|]. split; [exact Hnd|].
      intros k. split.
      * intros [Hnone (l & Hl & Hk)]%Hkeys.
        split; [exact Hnone|]. exists l. split; [right; exact Hl|exact Hk].
      * intros (Hnone & l & Hl & Hk). apply Hkeys. split; [exact Hnone|].
        apply elem_of_cons in Hl as [->|Hl]; [congruence|eauto].
Qed.
End Cycle.

Lemma named_or_not (cfg : config) {hooks : Hooks} (lines : list string) k :
  (∃ line, line ∈ lines ∧ produced cfg line = Some k)
  ∨ ¬ (∃ line, line ∈ lines ∧ produced cfg line = Some k).
Proof.
  destruct (decide (Exists (fun line => produced cfg line = Some k) lines))
    as [H|H]; rewrite Exists_exists in H; auto.
Qed.

Lemma all_stale_check T (t : gmap string attrs) :
  forallb (fun kv : string * attrs =>
             match Table.index_value "_updated" kv.2 with
             | Some u => (0 <=? u) && (u <? T - 1)
             | None => false
             end) (map_to_list t) = true →
  all_stale T t.
Proof.
  intros Hall k r Hk. rewrite forallb_forall in Hall.
  apply elem_of_map_to_list, list_elem_of_In in Hk.
  apply Hall in Hk. simpl in Hk.
  destruct (Table.index_value "_updated" r) as [u|]; [|discriminate].
  exists u. split; [reflexivity|lia].
Defined.

(** X5: a cycle that runs to its end on a store whose records were all
    stamped before [T - 1] leaves the store with exactly the indicators its
    lines name, and withdraws exactly the records it found and its lines do
    not name. *)
Theorem X5_cycle_mirrors_feed
    (clk : nat → Z) (cfg : config) (hooks : Hooks) lines s :
  monotone clk →
  seen (table s) →
  all_stale (clk (ticks s)) (table s) →
  (∀ line, line ∈ lines → ∃ p, parse cfg line = Ok p) →
  ∃ s' evs,
    _polling_loop clk cfg (Streamed lines None) s = (Ok tt, s')
    ∧ trace s' = trace s ++ evs
    ∧ (∀ k, is_Some (table s' !! k)
            ↔ ∃ line, line ∈ lines ∧ produced cfg line = Some k)
    ∧ (∀ k, k ∈ withdrawn_keys evs
            ↔ is_Some (table s !! k)
              ∧ ¬ ∃ line, line ∈ lines ∧ produced cfg line = Some k).
Proof.
  intros Hmono Hseen Hstale Hparse.
  set (s0 := set_ticks (S (ticks s)) s). set (T := clk (ticks s)).
  destruct (lines_ok clk cfg lines Hparse s0 Hseen) as [mid Hmid].
  destruct (emits_lines is_update ltac:(reflexivity) clk cfg lines s0)
    as (ups & Hups & Hall).
  rewrite Hmid in Hups. simpl in Hups.
  destruct (cycle_trace clk cfg lines s mid ups Hmid Hups)
    as (s' & Hrun & Htr & Htab).
  destruct (lines_fresh clk cfg T Hmono lines s0 mid Hseen
              ltac:(apply Hmono; simpl; lia) Hmid) as (_ & _ & _ & Hnew).
  assert (HA : ∀ k, (∃ line, line ∈ lines ∧ produced cfg line = Some k) →
                    fresh T (table mid) k).
  { intros k (line & Hin & [a Hp]%produced_parse). eauto. }
  assert (HB : ∀ k, ¬ (∃ line, line ∈ lines ∧ produced cfg line = Some k) →
                    table mid !! k = table s !! k).
  { intros k Hno.
    pose proof (proj2 (lines_table clk cfg lines s0 k)) as Hframe.
    rewrite Hmid in Hframe. apply Hframe. intros line Hin Hk. apply Hno. eauto. }
  set (q := Table.query "_updated" (Some 0) (Some (T - 1)) (table mid)) in *.
  assert (HC : ∀ k, k ∈ q.*1
                    ↔ is_Some (table s !! k)
                      ∧ ¬ ∃ line, line ∈ lines ∧ produced cfg line = Some k).
  { intros k. unfold q. rewrite elem_of_query_keys. split.
    - intros (r & z & Hk & Hz & Hr%in_range_bounds).
      assert (Hno : ¬ ∃ line, line ∈ lines ∧ produced cfg line = Some k).
      { intros (r' & u & Hk' & Hu & HT)%HA. rewrite Hk in Hk'. simplify_eq.
        unfold Table.index_value in Hz. rewrite Hu in Hz. simplify_eq. lia. }
      split; [|exact Hno]. rewrite <- (HB k Hno), Hk. eauto.
    - intros ([r Hk] & Hno). destruct (Hstale k r Hk) as (u & Hu & Hr).
      exists r, u. rewrite (HB k Hno). repeat split; [done..|].
      apply in_range_bounds. exact Hr. }
  exists s', (ups ++ map (fun iv : string * attrs =>
                           EmitWithdraw iv.1 {["sources" := VList [source_name cfg]]}) q).
  split; [exact Hrun|]. split; [exact Htr|]. split.
  - intros k. rewrite Htab, lookup_foldl_delete. fold q. split.
    + intros Hk. case_decide as Hin; [destruct Hk; discriminate|].
      destruct (named_or_not cfg lines k) as [Hyes|Hno]; [exact Hyes|].
      exfalso. apply Hin, HC. split; [|exact Hno]. rewrite <- (HB k Hno). exact Hk.
    + intros Hyes. destruct (HA k Hyes) as (r & u & Hk & _).
      rewrite decide_False; [rewrite Hk; eauto|].
      intros [_ Hno]%HC. done.
  - intros k. rewrite withdrawn_keys_app, withdrawn_keys_updates by exact Hall.
    rewrite withdrawn_keys_withdraws. apply HC.
Qed.

Lemma X5_cycle_mirrors_feed_witness :
  ∃ s' evs,
    _polling_loop (hooks := default_hooks) ticking feed
      (Streamed ["a"; "c"] None) after_first_cycle = (Ok tt, s')
    ∧ trace s' = trace after_first_cycle ++ evs
    ∧ is_Some (table s' !! "a") ∧ is_Some (table s' !! "c")
    ∧ table s' !! "b" = None
    ∧ "b" ∈ withdrawn_keys evs.
Proof.
  assert (Hstale : all_stale (ticking (ticks after_first_cycle))
                     (table after_first_cycle))
    by (apply all_stale_check; vm_compute; reflexivity).
  assert (Hparse : ∀ line, line ∈ ["a"; "c"] →
                           ∃ p, parse (hooks := default_hooks) feed line = Ok p).
  { intros line [->|[->|[]%elem_of_nil]%elem_of_cons]%elem_of_cons;
      eexists; reflexivity. }
  destruct (X5_cycle_mirrors_feed ticking feed default_hooks ["a"; "c"]
              after_first_cycle ticking_monotone after_first_cycle_seen
              Hstale Hparse) as (s' & evs & Hrun & Htr & Hdom & Hwd).
  exists s', evs. split; [exact Hrun|]. split; [exact Htr|].
  assert (Hnob : ¬ ∃ line, line ∈ ["a"; "c"]
                           ∧ produced (hooks := default_hooks) feed line = Some "b").
  { intros (line & [->|[->|[]%elem_of_nil]%elem_of_cons]%elem_of_cons & Hk);
      discriminate. }
  split; [|split; [|split]].
  - apply Hdom. exists "a". split; [left|reflexivity].
  - apply Hdom. exists "c". split; [right; left|reflexivity].
  - destruct (table s' !! "b") eqn:Hb; [|reflexivity].
    exfalso. apply Hnob, Hdom. eauto.
  - apply Hwd. split; [|exact Hnob]. rewrite after_first_cycle_b. eauto.
Defined.

(** X6: with the default predicate and [force_updates] off, a cycle that
    runs to its end emits an update for an indicator exactly when its lines
    name it and the store did not hold it when the cycle started, and then
    once: an indicator the store holds is never emitted again, whatever has
    changed in its line. *)
Theorem X6_known_indicators_not_reemitted
    (clk : nat → Z) (cfg : config) (hooks : Hooks) lines s :
  force_updates cfg = false →
  (∀ d1 d2, values_compare d1 d2 = true) →
  seen (table s) →
  (∀ line, line ∈ lines → ∃ p, parse cfg line = Ok p) →
  ∃ s' evs,
    _polling_loop clk cfg (Streamed lines None) s = (Ok tt, s')
    ∧ trace s' = trace s ++ evs
    ∧ NoDup (updated_keys evs)
    ∧ ∀ k, k ∈ updated_keys evs
           ↔ table s !! k = None
             ∧ ∃ line, line ∈ lines ∧ produced cfg line = Some k.
Proof.
  intros Hforce Hcmp Hseen Hparse.
  destruct (lines_first_sightings clk cfg Hforce Hcmp lines
              (set_ticks (S (ticks s)) s) Hseen Hparse)
    as (mid & ups & Hmid & Hups & Hnd & Hkeys).
  destruct (cycle_trace clk cfg lines s mid ups Hmid Hups)
    as (s' & Hrun & Htr & _).
  eexists s', _. split; [exact Hrun|]. split; [exact Htr|].
  rewrite updated_keys_app, updated_keys_withdraws, app_nil_r.
  split; [exact Hnd|exact Hkeys].
Qed.

Lemma X6_known_indicators_not_reemitted_witness :
  ∃ s' evs,
    _polling_loop (hooks := default_hooks) ticking feed
      (Streamed ["a"; "c"; "c"] None) after_first_cycle = (Ok tt, s')
    ∧ trace s' = trace after_first_cycle ++ evs
    ∧ NoDup (updated_keys evs)
    ∧ "c" ∈ updated_keys evs ∧ "a" ∉ updated_keys evs.
Proof.
  destruct (X6_known_indicators_not_reemitted ticking feed default_hooks
              ["a"; "c"; "c"] after_first_cycle eq_refl
              (fun _ _ => eq_refl) after_first_cycle_seen)
    as (s' & evs & Hrun & Htr & Hnd & Hkeys).
  { intros line Hin. repeat (apply elem_of_cons in Hin as [->|Hin]);
      [eexists; reflexivity..|]. apply elem_of_nil in Hin. done. }
  exists s', evs. split; [exact Hrun|]. split; [exact Htr|]. split; [exact Hnd|].
  split.
  - apply Hkeys. split.
    + vm_cast_no_check (eq_refl (@None attrs)).
    + exists "c". split; [right; left|reflexivity].
  - intros [Hnone _]%Hkeys. rewrite after_first_cycle_a in Hnone. discriminate.
Defined.

Lemma send_update_forced (cfg : config) {hooks : Hooks} ev a :
  force_updates cfg = true → send_update cfg ev a = true.
Proof. intros Hforce. unfold send_update. destruct ev; rewrite ?Hforce; done. Qed.

(** With [force_updates] on, the lines of a cycle emit one update for each
    line that names an indicator, in the order of the lines. *)
Lemma lines_forced (clk : nat → Z) (cfg : config) {hooks : Hooks} :
  force_updates cfg = true →
  ∀ lines s,
    seen (table s) →
    (∀ line, line ∈ lines → ∃ p, parse cfg line = Ok p) →
    ∃ mid ups,
      for_each lines (handle_line clk cfg) s = (Ok tt, mid)
      ∧ trace mid = trace s ++ ups
      ∧ updated_keys ups = omap (produced cfg) lines.
Proof.
  intros Hforce lines.
  induction lines as [|line lines IH]; intros s Hseen Hparse.
  - exists s, []. simpl. rewrite app_nil_r. done.
  - assert (Hrest : ∀ l, l ∈ lines → ∃ p, parse cfg l = Ok p)
      by (intros l Hl; apply Hparse; right; exact Hl).
    simpl. unfold bind.
    destruct (Hparse line ltac:(left)) as [[[k0 a]|] Hp].
    + rewrite (handle_line_indicator clk cfg line k0 a s Hp).
      assert (Hprod : produced cfg line = Some k0)
        by (unfold produced; rewrite Hp; reflexivity).
      rewrite Hprod.
      destruct (reconcile_ok clk cfg k0 a s Hseen)
        as (a0 & s1 & Hr & Ht & _ & Hfs & _).
      destruct (reconcile_cases clk cfg k0 a s)
        as [(u & fs & l & n & Hr')|(_ & Hr')]; [|congruence].
      cbv zeta in Hr'. rewrite send_update_forced in Hr' by exact Hforce.
      rewrite Hr'.
      match goal with |- context [for_each lines _ ?s2] =>
        destruct (IH s2) as (mid & ups & Hrun & Htr & Hkeys) end.
      { simpl. apply seen_insert; [done|]. rewrite stamp_first_seen. eauto. }
      { exact Hrest. }
      simpl in Htr.
      exists mid, (EmitUpdate k0 (stamp cfg a u fs l) :: ups).
      rewrite Hrun, Htr, <- app_assoc.
      split; [reflexivity|]. split; [reflexivity|].
      change (updated_keys (EmitUpdate k0 (stamp cfg a u fs l) :: ups))
        with (k0 :: updated_keys ups).
      rewrite Hkeys. reflexivity.
    + rewrite (handle_line_skip clk cfg line s Hp).
      assert (Hprod : produced cfg line = None)
        by (unfold produced; rewrite Hp; reflexivity).
      rewrite Hprod. apply IH; done.
Qed.

(** X7: with [force_updates] on, a cycle that runs to its end emits one
    update for each line that names an indicator, in the order of the
    lines, whether the store holds the indicator or not, and as often as the
    feed repeats it. *)
Theorem X7_forced_updates_follow_the_lines
    (clk : nat → Z) (cfg : config) (hooks : Hooks) lines s :
  force_updates cfg = true →
  seen (table s) →
  (∀ line, line ∈ lines → ∃ p, parse cfg line = Ok p) →
  ∃ s' evs,
    _polling_loop clk cfg (Streamed lines None) s = (Ok tt, s')
    ∧ trace s' = trace s ++ evs
    ∧ updated_keys evs = omap (produced cfg) lines.
Proof.
  intros Hforce Hseen Hparse.
  destruct (lines_forced clk cfg Hforce lines
              (set_ticks (S (ticks s)) s) Hseen Hparse)
    as (mid & ups & Hmid & Hups & Hkeys).
  destruct (cycle_trace clk cfg lines s mid ups Hmid Hups)
    as (s' & Hrun & Htr & _).
  eexists s', _. split; [exact Hrun|]. split; [exact Htr|].
  rewrite updated_keys_app, updated_keys_withdraws, app_nil_r. exact Hkeys.
Qed.

Lemma X7_forced_updates_follow_the_lines_witness :
  ∃ s' evs,
    _polling_loop (hooks := default_hooks) ticking forced_feed
      (Streamed ["b"; "b"] None) after_first_cycle = (Ok tt, s')
    ∧ trace s' = trace after_first_cycle ++ evs
    ∧ updated_keys evs = ["b"; "b"].
Proof.
  destruct (X7_forced_updates_follow_the_lines ticking forced_feed default_hooks
              ["b"; "b"] after_first_cycle eq_refl after_first_cycle_seen)
    as (s' & evs & Hrun & Htr & Hkeys).
  { intros line Hin. repeat (apply elem_of_cons in Hin as [->|Hin]);
      [eexists; reflexivity..|]. apply elem_of_nil in Hin. done. }
  exists s', evs. split; [exact Hrun|]. split; [exact Htr|exact Hkeys].
Defined.

(** *** Failures in a row, lines 119-131 *)

Section Retries.
Variable clk : nat → Z.
Variable cfg : config.
Context {hooks : Hooks}.

Lemma iteration_request_fails stim tryn s :
  request_fails stim →
  iteration clk cfg stim tryn s
  = if tryn + 1 <? num_retries cfg
    then (Ok (Loop (tryn + 1)),
          set_trace (trace s ++ [LogException;
                                 SleepSeconds (randint 1 5 (seed stim))])
            (set_ticks (S (S (ticks s))) s))
    else schedule clk cfg (fuel stim) (clk (ticks s))
           (set_trace (trace s ++ [LogException]) (set_ticks (S (S (ticks s))) s)).
Proof.
  intros (e & He & Hne). rewrite iteration_eq, He.
  change (_polling_loop clk cfg (Refused e) (set_ticks (S (ticks s)) s))
    with (@Raise unit e, set_ticks (S (S (ticks s))) s).
  destruct e; done.
Qed.

Lemma run_steps_app stims1 stims2 p s :
  run_steps clk cfg (stims1 ++ stims2) p s
  = bind (run_steps clk cfg stims1 p) (run_steps clk cfg stims2) s.
Proof.
  revert p s. induction stims1 as [|stim stims1 IH]; intros p s; simpl.
  - reflexivity.
  - unfold bind. destruct (_run clk cfg stim p s) as [[p'|e] s1].
    + rewrite IH. reflexivity.
    + reflexivity.
Qed.

Lemma retries_in_a_row stims :
  Forall request_fails stims →
  ∀ tryn s,
    tryn + Z.of_nat (List.length stims) < num_retries cfg →
    ∃ s',
      run_steps clk cfg stims (Loop tryn) s
      = (Ok (Loop (tryn + Z.of_nat (List.length stims))), s')
      ∧ trace s'
        = trace s ++ concat (map (fun stim =>
                                    [LogException;
                                     SleepSeconds (randint 1 5 (seed stim))]) stims)
      ∧ table s' = table s
      ∧ ticks s' = (ticks s + 2 * List.length stims)%nat.
Proof.
  induction 1 as [|stim stims Hfail _ IH]; intros tryn s Hlt.
  - exists s. simpl. rewrite Z.add_0_r, app_nil_r, Nat.add_0_r. done.
  - cbn [List.length] in Hlt. cbn [run_steps _run]. unfold bind.
    rewrite (iteration_request_fails stim tryn s Hfail).
    assert ((tryn + 1 <? num_retries cfg) = true) as -> by lia.
    destruct (IH (tryn + 1) (set_trace (trace s ++ [LogException;
                   SleepSeconds (randint 1 5 (seed stim))])
                   (set_ticks (S (S (ticks s))) s)) ltac:(lia))
      as (s' & Hrun & Htr & Htab & Htk).
    exists s'. simpl in Htr, Htab, Htk.
    replace (tryn + Z.of_nat (List.length (stim :: stims)))
      with (tryn + 1 + Z.of_nat (List.length stims))
      by (cbn [List.length]; lia).
    split; [exact Hrun|].
    split; [rewrite Htr, <- app_assoc; reflexivity|].
    split; [exact Htab|]. rewrite Htk. cbn [List.length]. lia.
Qed.
End Retries.

(** X8: while the requests fail one after the other, the loop tries again
    at once, each time after a jitter of 1 to 5 seconds and without an
    interval sleep, until the count of failures reaches [num_retries]: that
    failure goes on to the scheduling step with the counter back at 0. From
    a fresh counter a cycle is attempted [num_retries] times, once when
    [num_retries] is 1 or less.  The store is as it was. *)
Theorem X8_failures_in_a_row
    (clk : nat → Z) (cfg : config) (hooks : Hooks) stims tryn s :
  Forall request_fails stims →
  tryn + Z.of_nat (List.length stims) < num_retries cfg →
  (∃ s',
      run_steps clk cfg stims (Loop tryn) s
      = (Ok (Loop (tryn + Z.of_nat (List.length stims))), s')
      ∧ trace s'
        = trace s ++ concat (map (fun stim =>
                                    [LogException;
                                     SleepSeconds (randint 1 5 (seed stim))]) stims)
      ∧ table s' = table s)
  ∧ (∀ stim,
       request_fails stim →
       num_retries cfg ≤ tryn + Z.of_nat (List.length stims) + 1 →
       ∃ p s', run_steps clk cfg (stims ++ [stim]) (Loop tryn) s = (Ok p, s')
               ∧ counter p = Some 0
               ∧ table s' = table s).
Proof.
  intros Hfails Hlt.
  destruct (retries_in_a_row clk cfg stims Hfails tryn s Hlt)
    as (s1 & Hrun & Htr & Htab & _).
  split; [eauto|].
  intros stim Hfail Hge. rewrite run_steps_app. unfold bind at 1. rewrite Hrun.
  cbn [run_steps _run]. unfold bind, ret.
  rewrite (iteration_request_fails clk cfg stim _ s1 Hfail).
  assert ((tryn + Z.of_nat (List.length stims) + 1 <? num_retries cfg) = false)
    as -> by lia.
  set (s2 := set_trace _ _).
  destruct (schedule_counter clk cfg (fuel stim) (clk (ticks s1)) s2)
    as (p & Hp & Hc).
  pose proof (keeps_schedule table ltac:(done) ltac:(done) clk cfg
                (fuel stim) (clk (ticks s1)) s2) as Hkeep.
  destruct (schedule clk cfg (fuel stim) (clk (ticks s1)) s2) as [[p'|e] s3];
    simpl in *; [|discriminate].
  injection Hp as ->. exists p, s3. rewrite Hkeep. subst s2. simpl. auto.
Qed.

Lemma X8_failures_in_a_row_witness :
  ∃ s',
    run_steps (hooks := default_hooks) ticking feed
      [{| response := Refused RequestException; seed := 7; fuel := O |}]
      (Loop 0) (__init__ ∅ true) = (Ok (Loop 1), s')
    ∧ trace s' = [LogException; SleepSeconds 3]
    ∧ ∃ p s'',
        run_steps (hooks := default_hooks) ticking feed
          [{| response := Refused RequestException; seed := 7; fuel := O |};
           {| response := Refused RequestException; seed := 8; fuel := O |}]
          (Loop 0) (__init__ ∅ true) = (Ok p, s'')
        ∧ counter p = Some 0.
Proof.
  assert (Hfail : ∀ n, request_fails
            {| response := Refused RequestException; seed := n; fuel := O |}).
  { intros n. exists RequestException. split; [reflexivity|discriminate]. }
  destruct (X8_failures_in_a_row ticking feed default_hooks
              [{| response := Refused RequestException; seed := 7; fuel := O |}]
              0 (__init__ ∅ true))
    as [(s' & Hrun & Htr & _) Hnext].
  { constructor; [apply Hfail|constructor]. }
  { reflexivity. }
  exists s'. split; [exact Hrun|]. split; [exact Htr|].
  destruct (Hnext {| response := Refused RequestException; seed := 8; fuel := O |})
    as (p & s'' & Hrun' & Hc & _).
  { apply Hfail. }
  { vm_compute. discriminate. }
  exists p, s''. split; [exact Hrun'|exact Hc].
Defined.

(** *** The RPC methods as readers of the store, lines 145-180 *)

(** X9: the RPC methods only read: [get] and [length] leave the node as it
    is, [get_all] and [get_range] change nothing but the trace, to which
    they append updates addressed to their caller, each one carrying a key
    of the store with the record stored under it. *)
Theorem X9_rpc_methods_only_read (source : option string) (s : node) :
  let sent (e : effect) :=
    ∃ k v, e = RpcUpdate source k v ∧ table s !! k = Some v in
  (∀ indicator, (get source indicator s).2 = s)
  ∧ length source s = (Ok (size (table s)), s)
  ∧ (∃ evs, get_all source s = (Ok "OK", set_trace (trace s ++ evs) s)
            ∧ Forall sent evs)
  ∧ (∀ index from_key to_key,
       ∃ evs, (get_range source index from_key to_key s).2
              = set_trace (trace s ++ evs) s
              ∧ Forall sent evs).
Proof.
  intros sent.
  assert (Hsent : ∀ from_key to_key,
            Forall sent (map (fun iv : string * attrs => RpcUpdate source iv.1 iv.2)
                           (Table.query "_updated" from_key to_key (table s)))).
  { intros from_key to_key. apply Forall_forall. intros e Hin.
    apply list_elem_of_In, in_map_iff in Hin as ([k v] & <- & Hin).
    apply list_elem_of_In, elem_of_query in Hin as [Hk _]. exists k, v. done. }
  split; [|split; [|split]].
  - intros indicator. destruct indicator; reflexivity.
  - reflexivity.
  - eexists. split; [|apply (Hsent None None)].
    unfold get_all, bind, _send_indicators, table_query, bind.
    rewrite (for_each_perform _ (fun iv => RpcUpdate source iv.1 iv.2)).
    reflexivity.
  - intros index from_key to_key. unfold get_range.
    destruct (_ && _).
    + exists []. rewrite set_trace_nil. split; [reflexivity|constructor].
    + eexists. split; [|apply (Hsent from_key to_key)].
      unfold bind, _send_indicators, table_query, bind.
      rewrite (for_each_perform _ (fun iv => RpcUpdate source iv.1 iv.2)).
      reflexivity.
Qed.

(** *** A scan of the whole index *)

Lemma in_range_unbounded z : Table.in_range None None z = true.
Proof. reflexivity. Qed.

Lemma omap_index_entry_all iname (l : list (string * attrs)) :
  (∀ kv, kv ∈ l → is_Some (Table.index_value iname kv.2)) →
  (omap (Table.index_entry iname None None) l).*2 = l.
Proof.
  induction l as [|kv l IH]; intros Hall; [reflexivity|].
  destruct (Hall kv ltac:(left)) as [z Hz].
  cbn [omap list_omap]. unfold Table.index_entry at 1. rewrite Hz. simpl.
  f_equal. apply IH. intros kv' Hin. apply Hall. right. exact Hin.
Qed.

(** On a store whose records are all indexed an unbounded scan yields every
    record once. *)
Lemma query_all (t : gmap string attrs) :
  indexed t → Table.query "_updated" None None t ≡ₚ map_to_list t.
Proof.
  intros Hix. unfold Table.query, Table.scan.
  rewrite merge_sort_Permutation, omap_index_entry_all; [reflexivity|].
  intros [k r] Hin%elem_of_map_to_list. apply (Hix k r Hin).
Qed.

Lemma indexed_check (t : gmap string attrs) :
  forallb (fun kv : string * attrs =>
             bool_decide (is_Some (Table.index_value "_updated" kv.2)))
    (map_to_list t) = true →
  indexed t.
Proof.
  intros Hall k r Hk. rewrite forallb_forall in Hall.
  apply elem_of_map_to_list, list_elem_of_In in Hk.
  apply Hall in Hk. apply bool_decide_eq_true in Hk. exact Hk.
Defined.

Lemma after_first_cycle_indexed : indexed (table after_first_cycle).
Proof. apply indexed_check. vm_compute. reflexivity. Defined.

(** X10: on a store whose records all carry an integer [_updated],
    [get_all] sends its caller every record of the store exactly once, as
    many updates as [length] reports records, in ascending order of
    [_updated], and returns [OK]. *)
Theorem X10_get_all_sends_every_record (source : option string) (s : node) :
  indexed (table s) →
  ∃ q, q ≡ₚ map_to_list (table s)
       ∧ q = Table.query "_updated" None None (table s)
       ∧ get_all source s
         = (Ok "OK",
            set_trace (trace s ++ map (fun iv : string * attrs =>
                                         RpcUpdate source iv.1 iv.2) q) s)
       ∧ (length source s).1 = Ok (List.length q)
       ∧ NoDup q.*1
       ∧ (∀ k v, table s !! k = Some v ↔ (k, v) ∈ q).
Proof.
  intros Hix. exists (Table.query "_updated" None None (table s)).
  pose proof (query_all (table s) Hix) as Hperm.
  split; [exact Hperm|]. split; [reflexivity|]. split; [|split; [|split]].
  - unfold get_all, bind, _send_indicators, table_query, bind.
    rewrite (for_each_perform _ (fun iv => RpcUpdate source iv.1 iv.2)).
    reflexivity.
  - simpl. unfold Table.num_indicators. f_equal.
    rewrite (Permutation_length Hperm), length_map_to_list. reflexivity.
  - rewrite Hperm. apply NoDup_fst_map_to_list.
  - intros k v. rewrite Hperm. symmetry. apply elem_of_map_to_list.
Qed.

Lemma X10_get_all_sends_every_record_witness :
  indexed (table after_first_cycle)
  ∧ ∃ q, get_all None after_first_cycle
         = (Ok "OK",
            set_trace (trace after_first_cycle
                       ++ map (fun iv : string * attrs => RpcUpdate None iv.1 iv.2) q)
              after_first_cycle)
         ∧ (length None after_first_cycle).1 = Ok (List.length q)
         ∧ (∃ v, ("a", v) ∈ q) ∧ (∃ v, ("b", v) ∈ q).
Proof.
  split; [exact after_first_cycle_indexed|].
  destruct (X10_get_all_sends_every_record None after_first_cycle
              after_first_cycle_indexed)
    as (q & _ & _ & Hrun & Hlen & _ & Hall).
  exists q. split; [exact Hrun|]. split; [exact Hlen|]. split.
  - eexists. apply Hall, after_first_cycle_a.
  - eexists. apply Hall, after_first_cycle_b.
Defined.

(** X11: when the task is entered on a node whose [reinit_flag] is false it
    first emits an update for every record of the store (all of them
    carrying an integer [_updated]), each exactly once, with the record as
    it is stored, and leaves the store as it is; when the flag is true it
    emits nothing.  Either way it then stands at the top of its loop with
    the retry counter at 0. *)
Theorem X11_resend_on_entry (s : node) :
  indexed (table s) →
  (reinit_flag s = false →
   ∃ q, q ≡ₚ map_to_list (table s)
        ∧ q = Table.query "_updated" None None (table s)
        ∧ run_entry s
          = (Ok (Loop 0),
             set_trace (trace s ++ map (fun iv : string * attrs =>
                                          EmitUpdate iv.1 iv.2) q) s))
  ∧ (reinit_flag s = true → run_entry s = (Ok (Loop 0), s)).
Proof.
  intros Hix. split; intros Hflag; unfold run_entry; rewrite Hflag; simpl.
  - exists (Table.query "_updated" None None (table s)).
    split; [apply query_all, Hix|]. split; [reflexivity|].
    unfold bind, table_query.
    rewrite (for_each_perform _ (fun iv => EmitUpdate iv.1 iv.2)).
    reflexivity.
  - reflexivity.
Qed.

Lemma X11_resend_on_entry_witness :
  indexed (table after_first_cycle)
  ∧ ∃ q, q ≡ₚ map_to_list (table after_first_cycle)
         ∧ run_entry (__init__ (table after_first_cycle) false)
           = (Ok (Loop 0),
              set_trace (map (fun iv : string * attrs => EmitUpdate iv.1 iv.2) q)
                (__init__ (table after_first_cycle) false)).
Proof.
  split; [exact after_first_cycle_indexed|].
  destruct (X11_resend_on_entry (__init__ (table after_first_cycle) false)
              after_first_cycle_indexed) as [Hresend _].
  destruct (Hresend eq_refl) as (q & Hperm & _ & Hrun).
  exists q. split; [exact Hperm|exact Hrun].
Defined.

(** *** The stale scan run twice, lines 101-105 *)

Lemma omap_index_entry_keys iname a b (l : list (string * attrs)) k :
  k ∈ (omap (Table.index_entry iname a b) l).*2.*1 → k ∈ l.*1.
Proof.
  intros ([k' r] & -> & ([z kv] & -> & Hin)%list_elem_of_fmap)%list_elem_of_fmap.
  apply list_elem_of_omap in Hin as (kv' & Hin & Hentry).
  unfold Table.index_entry in Hentry.
  destruct (Table.index_value iname kv'.2); [|discriminate].
  destruct (Table.in_range a b z0); [|discriminate].
  simplify_eq. apply list_elem_of_fmap. eauto.
Qed.

Lemma omap_index_entry_NoDup iname a b (l : list (string * attrs)) :
  NoDup l.*1 → NoDup (omap (Table.index_entry iname a b) l).*2.*1.
Proof.
  induction l as [|kv l IH]; intros Hnd; [constructor|].
  apply NoDup_cons in Hnd as [Hk Hnd]. cbn [omap list_omap].
  unfold Table.index_entry at 1.
  destruct (Table.index_value iname kv.2) as [z|]; [|apply IH, Hnd].
  destruct (Table.in_range a b z); [|apply IH, Hnd].
  simpl. constructor; [|apply IH, Hnd].
  intros Hin%omap_index_entry_keys. done.
Qed.

(** A scan yields no key twice. *)
Lemma query_keys_NoDup iname a b (t : gmap string attrs) :
  NoDup (Table.query iname a b t).*1.
Proof.
  unfold Table.query, Table.scan. rewrite merge_sort_Permutation.
  apply omap_index_entry_NoDup, NoDup_fst_map_to_list.
Qed.

(** X12: the stale scan withdraws no key twice, and a second scan for the
    same [T] right after the first finds nothing left to withdraw: it
    leaves the node as it is. *)
Theorem X12_stale_scan_once (cfg : config) (T : Z) (s : node) :
  let s1 := (withdraw_stale cfg T s).2 in
  (∃ evs, trace s1 = trace s ++ evs
          ∧ forallb is_withdraw evs = true
          ∧ NoDup (withdrawn_keys evs))
  ∧ withdraw_stale cfg T s1 = (Ok tt, s1).
Proof.
  cbv zeta. rewrite withdraw_stale_eq. simpl.
  set (q := Table.query "_updated" (Some 0) (Some (T - 1)) (table s)).
  split.
  - eexists. split; [reflexivity|]. split.
    + clear. induction q as [|iv q IH]; [reflexivity|exact IH].
    + rewrite withdrawn_keys_withdraws. apply query_keys_NoDup.
  - rewrite withdraw_stale_eq. simpl.
    set (t1 := foldl (fun t iv => Table.delete iv.1 t) (table s) q).
    assert (Table.query "_updated" (Some 0) (Some (T - 1)) t1 = []) as ->.
    { destruct (Table.query "_updated" (Some 0) (Some (T - 1)) t1)
        as [|[k r] q1] eqn:Hq1; [reflexivity|exfalso].
      assert (Hin : (k, r) ∈ Table.query "_updated" (Some 0) (Some (T - 1)) t1)
        by (rewrite Hq1; left).
      apply elem_of_query in Hin as (Hk & z & Hz & Hr).
      unfold t1 in Hk. rewrite lookup_foldl_delete in Hk.
      case_decide as Hq; [discriminate|]. apply Hq.
      apply elem_of_query_keys. eauto. }
    simpl. rewrite app_nil_r. reflexivity.
Qed.

(** *** One task to a node, lines 182-186 *)

Lemma spawns_app tr evs : spawns (tr ++ evs) = (spawns tr + spawns evs)%nat.
Proof. unfold spawns. rewrite List.filter_app, length_app. reflexivity. Qed.

Lemma spawns_none evs : forallb no_spawn evs = true → spawns evs = O.
Proof.
  induction evs as [|e evs IH]; [reflexivity|]. simpl.
  intros [He Hevs]%andb_true_iff. unfold spawns in *. simpl.
  unfold no_spawn in He. destruct (is_spawn e); [discriminate|].
  apply IH, Hevs.
Qed.

Section OneTask.
Variable clk : nat → Z.
Variable cfg : config.
Context {hooks : Hooks}.

(** Every method but [start], and every step of the task, spawns nothing
    and neither sets nor clears the handle. *)
Lemma exec_spawns_nothing s o :
  (∀ seed, o ≠ Start seed) →
  spawns (trace (exec clk cfg s o)) = spawns (trace s)
  ∧ (is_Some (glet (exec clk cfg s o)) ↔ is_Some (glet s)).
Proof.
  intros Hns.
  assert (Hev : ∀ s', (∃ evs, trace s' = trace s ++ evs
                              ∧ forallb no_spawn evs = true) →
                      spawns (trace s') = spawns (trace s)).
  { intros s' (evs & -> & Hall). rewrite spawns_app, (spawns_none evs Hall). lia. }
  destruct o as [seed0| | | | | |]; simpl.
  - destruct (Hns seed0 eq_refl).
  - destruct (glet s) as [g|] eqn:Hg.
    + rewrite (stop_eq s g Hg). simpl. split; [|split; eauto].
      rewrite spawns_app. rewrite (spawns_none (_ ++ [KillGlet])); [lia|].
      rewrite forallb_app, andb_true_iff. split; [|reflexivity].
      clear. induction (active_requests s) as [|h l IH]; [reflexivity|exact IH].
    + unfold stop. rewrite Hg. simpl. rewrite Hg. done.
  - rewrite (keeps_get glet). split; [|done].
    apply Hev, (emits_get no_spawn).
  - rewrite (keeps_get_all glet) by done. split; [|done].
    apply Hev, (emits_get_all no_spawn). done.
  - rewrite (keeps_get_range glet) by done. split; [|done].
    apply Hev, (emits_get_range no_spawn). done.
  - done.
  - unfold task. destruct (glet s) as [g|] eqn:Hg; [|rewrite Hg; done].
    assert (Hemits : emits no_spawn (_run clk cfg stim (at_pc g)))
      by (apply emits_run; done).
    pose proof (Hemits s) as Hrun.
    destruct (_run clk cfg stim (at_pc g) s) as [[p|e] s']; simpl in *;
      (split; [apply Hev, Hrun|split; eauto]).
Qed.

Lemma held_is_Some s s' :
  (is_Some (glet s') ↔ is_Some (glet s)) → held s' = held s.
Proof.
  unfold held. intros [H1 H2].
  destruct (glet s') as [g'|], (glet s) as [g|]; try reflexivity.
  - destruct H1 as [? ?]; [eauto|discriminate].
  - destruct H2 as [? ?]; [eauto|discriminate].
Qed.

Lemma exec_one_task s o :
  spawns (trace s) = held s →
  spawns (trace (exec clk cfg s o)) = held (exec clk cfg s o).
Proof.
  intros Hs.
  assert (Hother : (∀ seed, o ≠ Start seed) →
                   spawns (trace (exec clk cfg s o)) = held (exec clk cfg s o)).
  { intros Hns. destruct (exec_spawns_nothing s o Hns) as [-> Hg].
    rewrite (held_is_Some s _ Hg). exact Hs. }
  destruct o as [seed0| | | | | |]; try (apply Hother; discriminate).
  simpl. unfold start, held in *. destruct (glet s) as [g|] eqn:Hg; simpl.
  - rewrite Hg. exact Hs.
  - rewrite spawns_app, Hs. reflexivity.
Qed.
End OneTask.

(** X13: a node spawns at most one task: in every state it reaches its
    trace holds one spawn if it holds a task handle and none if it does
    not, and no method but [start] ever sets the handle. *)
Theorem X13_one_task_per_node (clk : nat → Z) (cfg : config) (hooks : Hooks) :
  ∀ t reinit ops,
    let s := execs clk cfg (__init__ t reinit) ops in
    spawns (trace s) = held s
    ∧ (spawns (trace s) ≤ 1)%nat
    ∧ ∀ o, (∀ seed, o ≠ Start seed) →
           (is_Some (glet (exec clk cfg s o)) ↔ is_Some (glet s)).
Proof.
  intros t reinit ops s.
  assert (Hone : spawns (trace s) = held s).
  { subst s. induction ops as [|o ops IH] using rev_ind; [reflexivity|].
    rewrite execs_snoc. apply exec_one_task, IH. }
  split; [exact Hone|]. split.
  - rewrite Hone. unfold held. destruct (glet s); lia.
  - intros o Hns. apply exec_spawns_nothing, Hns.
Qed.

(** *** A cancellation during the fetch, lines 122-125 *)

(** X14: when the polling loop of a running task is cancelled (it raises
    [GreenletExit], at the request or while the body is read), the task ends
    there: nothing is logged, nothing is slept, nothing is withdrawn, the
    records written so far stay, and the node is left holding the handle of
    an ended task, on which neither a task step nor [start] has any
    effect. *)
Theorem X14_cancelled_fetch_ends_task
    (clk : nat → Z) (cfg : config) (hooks : Hooks) stim s g tryn :
  glet s = Some g →
  at_pc g = Loop tryn →
  (_polling_loop clk cfg (response stim) (set_ticks (S (ticks s)) s)).1
  = Raise GreenletExit →
  let s' := task clk cfg stim s in
  stopped s'
  ∧ (∃ evs, trace s' = trace s ++ evs ∧ forallb is_update evs = true)
  ∧ (∀ k, is_Some (table s !! k) → is_Some (table s' !! k))
  ∧ (∀ stim', task clk cfg stim' s' = s')
  ∧ (∀ seed, start seed s' = (Ok tt, s')).
Proof.
  intros Hg Hpc Hcancel s'.
  assert (Hs' : ∃ s1, _polling_loop clk cfg (response stim)
                        (set_ticks (S (ticks s)) s) = (Raise GreenletExit, s1)
                      ∧ s' = set_glet (Some {| delay := delay g; at_pc := Done |}) s1).
  { subst s'. unfold task. rewrite Hg, Hpc. cbn [_run]. rewrite iteration_eq.
    destruct (_polling_loop clk cfg (response stim) _) as [[u|e] s1];
      simpl in Hcancel; [discriminate|]. injection Hcancel as ->. eauto. }
  destruct Hs' as (s1 & Hpoll & ->).
  destruct (polling_loop_raise clk cfg _ _ _ _ Hpoll) as [lines ->].
  assert (Hst : stopped (set_glet (Some {| delay := delay g; at_pc := Done |})
                  (for_each lines (handle_line clk cfg)
                     (set_ticks (S (S (ticks s))) s)).2))
    by (eexists; split; reflexivity).
  split; [exact Hst|]. split; [|split; [|split]].
  - apply (emits_lines is_update ltac:(reflexivity) clk cfg lines
             (set_ticks (S (S (ticks s))) s)).
  - intros k Hk. apply (lines_table clk cfg lines). exact Hk.
  - intros stim'. apply stopped_task, Hst.
  - intros seed. apply stopped_start, Hst.
Qed.

Lemma X14_cancelled_fetch_ends_task_witness :
  let s := set_glet (Some {| delay := 1; at_pc := Loop 0 |}) after_first_cycle in
  let s' := task (hooks := default_hooks) ticking feed
              {| response := Streamed ["c"] (Some GreenletExit);
                 seed := 0; fuel := O |} s in
  stopped s' ∧ is_Some (table s' !! "a") ∧ is_Some (table s' !! "b").
Proof.
  intros s s'.
  destruct (X14_cancelled_fetch_ends_task ticking feed default_hooks
              {| response := Streamed ["c"] (Some GreenletExit);
                 seed := 0; fuel := O |} s
              {| delay := 1; at_pc := Loop 0 |} 0 eq_refl eq_refl)
    as (Hst & _ & Hkeep & _).
  { vm_cast_no_check (eq_refl (@Raise unit GreenletExit)). }
  split; [exact Hst|]. split; apply Hkeep.
  - change (table s) with (table after_first_cycle).
    rewrite after_first_cycle_a. eauto.
  - change (table s) with (table after_first_cycle).
    rewrite after_first_cycle_b. eauto.
Defined.

(** *** An interval that is not positive, lines 135-143 *)

Lemma overrun_spins cfg fuel :
  interval cfg ≤ 0 →
  ∀ deltat s,
    deltat < 0 →
    overrun cfg fuel deltat s
    = (Ok (Spin (deltat + Z.of_nat fuel * (interval cfg * 1000))),
       set_trace (trace s ++ replicate fuel LogWarning) s).
Proof.
  intros Hint. induction fuel as [|fuel IH]; intros deltat s Hneg.
  - simpl. assert ((deltat <? 0) = true) as -> by lia.
    rewrite Z.add_0_r, set_trace_nil. reflexivity.
  - rewrite overrun_neg by done. rewrite IH by lia. simpl.
    rewrite <- app_assoc. do 3 f_equal. lia.
Qed.

(** X15: with an interval of 0 or less, a cycle that ends after the time
    it is due never reaches its sleep: the overrun loop logs a warning at
    each pass and stays negative, and every further step of the task finds
    it in that loop, with the store as it was. *)
Theorem X15_overrun_without_interval (clk : nat → Z) (cfg : config) (hooks : Hooks) :
  interval cfg ≤ 0 →
  ∀ lastrun s passes,
    lastrun + interval cfg * 1000 < clk (ticks s) →
    ∃ d,
      d < 0
      ∧ schedule clk cfg passes lastrun s
        = (Ok (Spin d),
           set_trace (trace s ++ replicate passes LogWarning)
             (set_ticks (S (ticks s)) s))
      ∧ ∀ stim s1, ∃ d',
          d' < 0
          ∧ _run clk cfg stim (Spin d) s1
            = (Ok (Spin d'),
               set_trace (trace s1 ++ replicate (fuel stim) LogWarning) s1).
Proof.
  intros Hint lastrun s fuel0 Hlate.
  set (deltat := lastrun + interval cfg * 1000 - clk (ticks s)).
  exists (deltat + Z.of_nat fuel0 * (interval cfg * 1000)).
  assert (Hd : deltat + Z.of_nat fuel0 * (interval cfg * 1000) < 0) by nia.
  split; [exact Hd|]. split.
  - unfold schedule, bind, utc_millisec. fold deltat.
    rewrite overrun_spins by (done || lia). reflexivity.
  - intros stim s1. eexists. split; [|apply overrun_spins; done].
    nia.
Qed.

Lemma X15_overrun_without_interval_witness :
  interval stalled_feed ≤ 0
  ∧ ∃ d, d < 0
         ∧ schedule ticking stalled_feed 3 0 (set_ticks 2 (__init__ ∅ true))
           = (Ok (Spin d),
              set_trace (replicate 3 LogWarning) (set_ticks 3 (__init__ ∅ true))).
Proof.
  assert (Hint : interval stalled_feed ≤ 0) by (vm_compute; discriminate).
  split; [exact Hint|].
  destruct (X15_overrun_without_interval ticking stalled_feed default_hooks Hint
              0 (set_ticks 2 (__init__ ∅ true)) 3)
    as (d & Hd & Hrun & _).
  { vm_compute. reflexivity. }
  exists d. split; [exact Hd|exact Hrun].
Defined.

(** *** Every record the node keeps is indexed *)

Section AnyStoreInvariant.
Variable clk : nat → Z.
Variable cfg : config.
Context {hooks : Hooks}.
Variable I : gmap string attrs → Prop.
Hypothesis I_delete : ∀ t k, I t → I (Table.delete k t).
Hypothesis I_stamp : ∀ t k a u fs l, I t → I (<[k := stamp cfg a u fs l]> t).

Lemma handle_line_any line s :
  I (table s) → I (table (handle_line clk cfg line s).2).
Proof.
  intros Hs. destruct (parse cfg line) as [[[k a]|]|e] eqn:Hp.
  - rewrite (handle_line_indicator clk cfg line k a s Hp).
    destruct (reconcile_cases clk cfg k a s)
      as [(u & fs & l & n & ->)|(_ & ->)]; simpl; [apply I_stamp|]; exact Hs.
  - rewrite (handle_line_skip clk cfg line s Hp). exact Hs.
  - rewrite (handle_line_raise clk cfg line e s Hp). exact Hs.
Qed.

Lemma foldl_delete_any (q : list (string * attrs)) t :
  I t → I (foldl (fun t iv => Table.delete iv.1 t) t q).
Proof.
  revert t. induction q as [|iv q IH]; intros t Ht; simpl; [exact Ht|].
  apply IH, I_delete, Ht.
Qed.

Lemma polling_loop_any r s :
  I (table s) → I (table (_polling_loop clk cfg r s).2).
Proof.
  intros Hs. unfold _polling_loop, bind at 1, utc_millisec.
  destruct r as [e|lines broken]; [exact Hs|].
  unfold bind at 1.
  pose proof (for_each_invariant (fun s => I (table s)) lines
                (handle_line clk cfg) handle_line_any
                (set_ticks (S (ticks s)) s) Hs) as Hlines.
  destruct (for_each lines (handle_line clk cfg) _) as [[u|e] mid];
    simpl in Hlines; [|exact Hlines].
  unfold bind at 1. destruct broken as [e|]; [exact Hlines|].
  unfold ret at 1. rewrite withdraw_stale_eq. simpl.
  apply foldl_delete_any, Hlines.
Qed.

Lemma exec_any s o : I (table s) → I (table (exec clk cfg s o)).
Proof.
  intros Hs. destruct o; simpl.
  - unfold start. destruct (glet s); exact Hs.
  - destruct (glet s) as [g|] eqn:Hg.
    + rewrite (stop_eq s g Hg). exact Hs.
    + unfold stop. rewrite Hg. exact Hs.
  - rewrite (keeps_get table). exact Hs.
  - rewrite (keeps_get_all table) by done. exact Hs.
  - rewrite (keeps_get_range table) by done. exact Hs.
  - exact Hs.
  - unfold task. destruct (glet s) as [g|]; [|exact Hs].
    assert (I (table (_run clk cfg stim (at_pc g) s).2)) as Hrun.
    { destruct (at_pc g); simpl.
      - rewrite (keeps_run_entry table) by done. exact Hs.
      - rewrite iteration_eq.
        pose proof (polling_loop_any (response stim)
                      (set_ticks (S (ticks s)) s) Hs) as Hp.
        destruct (_polling_loop clk cfg (response stim) _) as [[u|e] s'];
          simpl in Hp.
        + rewrite (keeps_schedule table) by done. exact Hp.
        + destruct (tryn + 1 <? num_retries cfg);
            destruct e; simpl; try exact Hp;
            rewrite (keeps_schedule table) by done; exact Hp.
      - rewrite (keeps_overrun table) by done. exact Hs.
      - exact Hs. }
    destruct (_run clk cfg stim (at_pc g) s) as [[p|e] s']; exact Hrun.
Qed.
End AnyStoreInvariant.

(** A node built on an empty store has all its records indexed in every
    state it reaches. *)
Lemma reachable_indexed (clk : nat → Z) (cfg : config) {hooks : Hooks} reinit ops :
  indexed (table (execs clk cfg (__init__ ∅ reinit) ops)).
Proof.
  induction ops as [|o ops IH] using rev_ind.
  - intros k r. simpl. rewrite lookup_empty. discriminate.
  - rewrite execs_snoc. apply (exec_any clk cfg indexed); [| |exact IH].
    + intros t k Ht k' r. unfold Table.delete.
      rewrite lookup_delete. case_decide; [discriminate|]. apply Ht.
    + intros t k a u fs l Ht k' r. rewrite lookup_insert. case_decide.
      * intros [= <-]. rewrite index_value_stamp. eauto.
      * apply Ht.
Qed.
